(** * SimpleVector: a shallow embedding of [simple_vector.h]

    The class template [SimpleVector<Type>] is embedded as a record holding
    the owned buffer and the two [size_t] counters.  Every member function is
    a function on that record.  A function that dereferences the buffer, that
    asserts or that throws returns an [outcome], so that an access outside the
    allocated block is a visible result of the model and not a silent no-op.

    Conventions:
    - [size_t] values are in [N] and every [size_t] operation of the source
      is written with its wrap-around; pointer arithmetic does not wrap;
    - a buffer is the list of its slots, and a pointer into it is its offset
      from the start of the block;
    - [assert] is evaluated (a build without [NDEBUG]); the theorems about a
      call assume its precondition, so they hold with asserts compiled out;
    - the loops of the standard algorithms are written out, one buffer access
      at a time, in the order the algorithm makes them. *)

From stdpp Require Import base decidable option numbers list gmap.

Local Open Scope N_scope.

(** ** [size_t] *)

(** [size_t] is an unsigned 64-bit integer; its arithmetic wraps around. *)
Definition size_t := N.
Definition size_t_modulus : N := 2 ^ 64.
Definition PTRDIFF_MAX : N := 2 ^ 63 - 1.

Definition wrap (n : N) : size_t := n mod size_t_modulus.
Definition size_add (a b : size_t) : size_t := wrap (a + b).
Definition size_mul (a b : size_t) : size_t := wrap (a * b).
Definition size_sub (a b : size_t) : size_t := wrap (a + size_t_modulus - b).

(** ** Results of a call *)

Inductive fault : Set :=
| out_of_range      (* throw std::out_of_range("Out of range") *)
| assertion_failed  (* an assert(...) of the source does not hold *)
| out_of_bounds     (* a read or write outside the allocated block *)
| dangling.         (* an object address that holds no object *)

Inductive outcome (A : Type) : Type :=
| Ok (a : A)
| Fail (f : fault).
Arguments Ok {A} a.
Arguments Fail {A} f.

Definition bind {A B : Type} (m : outcome A) (k : A → outcome B) : outcome B :=
  match m with
  | Ok a => k a
  | Fail f => Fail f
  end.

#[global] Instance outcome_ret : MRet outcome := @Ok.
#[global] Instance outcome_bind : MBind outcome := λ A B k m, bind m k.
#[global] Instance outcome_fmap : FMap outcome := λ A B g m, bind m (λ a, Ok (g a)).

Definition assert (b : bool) : outcome unit :=
  if b then Ok tt else Fail assertion_failed.

#[global] Instance fault_eq_dec : EqDecision fault.
Proof. solve_decision. Defined.

(** An iterator ([Type*], [const Type*]) is modelled by its offset from
    [items_.Get()], the start of the buffer it points into. *)
Definition ptr := N.

(** What the class template asks of its element type: [Type{}] / [Type()],
    the value-initialised element.  ([operator==] of the element type is
    stdpp's [EqDecision].) *)
Class ValueInit (T : Type) := Type_default : T.

(** [int], as far as the class uses it: values that are copied and compared. *)
#[global] Instance int_ValueInit : ValueInit Z := 0%Z.

Section SimpleVector.

Context {T : Type} `{!ValueInit T, !EqDecision T}.

(** ** The buffer ([ArrayPtr<Type>], from [array_ptr.h]) *)

(** Modelled from the spec: [array_ptr.h] is not among the sources.  The spec
    gives the buffer wrapper as: allocate(n) yields an owned buffer of n
    default-constructed elements; swap exchanges ownership; indexed element
    access; get raw pointer.  A buffer is the list of its slots. *)
Definition ArrayPtr_new (size : size_t) : list T :=
  replicate (N.to_nat size) Type_default.

(** Modelled from the spec: a default-constructed [ArrayPtr] owns no block. *)
Definition ArrayPtr_empty : list T := [].

(** Reading [p[i]] where [p] points at the start of block [a]. *)
Definition load (a : list T) (i : nat) : outcome T :=
  match a !! i with
  | Some x => Ok x
  | None => Fail out_of_bounds
  end.

(** Writing [p[i] = x]. *)
Definition store (a : list T) (i : nat) (x : T) : outcome (list T) :=
  if decide (i < length a)%nat then Ok (<[i := x]> a) else Fail out_of_bounds.

(** The iteration count of a pointer range [first, last).  A loop over a
    range whose end lies before its start walks off the block. *)
Definition range (first last : ptr) : outcome nat :=
  if last <? first then Fail out_of_bounds else Ok (N.to_nat (last - first)).

(** ** The standard algorithms the class calls *)

(** [for (it = first; it != last; ++it) *it = x;] with [n] iterations left. *)
Fixpoint fill_loop (n : nat) (it : nat) (x : T) (a : list T) : outcome (list T) :=
  match n with
  | O => Ok a
  | S n' => a' ← store a it x; fill_loop n' (S it) x a'
  end.

(** [std::fill(first, last, value)] on block [a]. *)
Definition std_fill (a : list T) (first last : ptr) (value : T) : outcome (list T) :=
  n ← range first last; fill_loop n (N.to_nat first) value a.

(** [while (first != last) *d_first++ = *first++;] from block [src] into
    another block [dst]. *)
Fixpoint copy_loop (n : nat) (src : list T) (first : nat)
    (dst : list T) (d_first : nat) : outcome (list T) :=
  match n with
  | O => Ok dst
  | S n' =>
      x ← load src first;
      dst' ← store dst d_first x;
      copy_loop n' src (S first) dst' (S d_first)
  end.

(** [std::copy(first, last, d_first)]; [first], [last] point into [src] and
    [d_first] into [dst]. *)
Definition std_copy (src : list T) (first last : ptr) (dst : list T) (d_first : ptr)
    : outcome (list T) :=
  n ← range first last; copy_loop n src (N.to_nat first) dst (N.to_nat d_first).

(** [std::move(first, last, d_first)]: on values it is [std::copy]; the
    moved-from block is discarded by every caller. *)
Definition std_move := std_copy.

(** [while (first != last) *(--d_last) = *(--last);] inside one block. *)
Fixpoint copy_backward_loop (n : nat) (a : list T) (last d_last : nat)
    : outcome (list T) :=
  match n with
  | O => Ok a
  | S n' =>
      x ← load a (pred last);
      a' ← store a (pred d_last) x;
      copy_backward_loop n' a' (pred last) (pred d_last)
  end.

(** [std::copy_backward(first, last, d_last)], all three into block [a]. *)
Definition std_copy_backward (a : list T) (first last d_last : ptr) : outcome (list T) :=
  n ← range first last; copy_backward_loop n a (N.to_nat last) (N.to_nat d_last).

(** The loop of [std::equal]: it walks both ranges in step and returns false
    at the first pair of elements that [operator==] tells apart, true when the
    first range is exhausted. *)
Fixpoint equal_loop (n : nat) (a1 : list T) (first1 : nat)
    (a2 : list T) (first2 : nat) : outcome bool :=
  match n with
  | O => Ok true
  | S n' =>
      x ← load a1 first1;
      y ← load a2 first2;
      if bool_decide (x = y) then equal_loop n' a1 (S first1) a2 (S first2)
      else Ok false
  end.

(** The three-iterator [std::equal(first1, last1, first2)]. *)
Definition std_equal (a1 : list T) (first1 last1 : ptr) (a2 : list T) (first2 : ptr)
    : outcome bool :=
  n ← range first1 last1; equal_loop n a1 (N.to_nat first1) a2 (N.to_nat first2).

(** ** The class *)

Record ReserveProxyObj : Set := mkReserveProxyObj { proxy_capacity_ : size_t }.

Definition ReserveProxyObj_GetCapacity (p : ReserveProxyObj) : size_t :=
  proxy_capacity_ p.

Record SimpleVector : Type := mkSimpleVector {
  items_ : list T;
  size_ : size_t;
  capacity_ : size_t
}.

Definition GetSize (v : SimpleVector) : size_t := size_ v.
Definition GetCapacity (v : SimpleVector) : size_t := capacity_ v.
Definition IsEmpty (v : SimpleVector) : bool := size_ v =? 0.

Definition begin (v : SimpleVector) : ptr := 0.
Definition end_ (v : SimpleVector) : ptr := 0 + size_ v.

(** [SimpleVector() noexcept = default] *)
Definition SimpleVector_default : SimpleVector :=
  {| items_ := ArrayPtr_empty; size_ := 0; capacity_ := 0 |}.

(** [SimpleVector(size_t size, const Type& value)] *)
Definition SimpleVector_fill (size : size_t) (value : T) : outcome SimpleVector :=
  let items := ArrayPtr_new size in
  items ← std_fill items 0 (0 + size) value;
  Ok {| items_ := items; size_ := size; capacity_ := size |}.

(** [explicit SimpleVector(size_t size)] *)
Definition SimpleVector_sized (size : size_t) : outcome SimpleVector :=
  SimpleVector_fill size Type_default.

(** [SimpleVector(std::initializer_list<Type> init)] *)
Definition SimpleVector_init (init : list T) : outcome SimpleVector :=
  let n := N.of_nat (length init) in
  let items := ArrayPtr_new n in
  items ← std_copy init 0 n items 0;
  Ok {| items_ := items; size_ := n; capacity_ := n |}.

(** [SimpleVector(const SimpleVector& other)] *)
Definition SimpleVector_copy (other : SimpleVector) : outcome SimpleVector :=
  let items := ArrayPtr_new (GetSize other) in
  items ← std_copy (items_ other) (begin other) (end_ other) items 0;
  Ok {| items_ := items; size_ := GetSize other; capacity_ := GetCapacity other |}.

(** [void swap(SimpleVector& other) noexcept]: the pair is ([*this], [other])
    after the call. *)
Definition swap (this other : SimpleVector) : SimpleVector * SimpleVector :=
  ({| items_ := items_ other; size_ := size_ other; capacity_ := capacity_ other |},
   {| items_ := items_ this; size_ := size_ this; capacity_ := capacity_ this |}).

(** [SimpleVector(SimpleVector&& other)]: the pair is (the new object,
    [other] after the call). *)
Definition SimpleVector_move (other : SimpleVector) : SimpleVector * SimpleVector :=
  let this := {| items_ := ArrayPtr_new (GetSize other); size_ := 0; capacity_ := 0 |} in
  swap this other.

(** [void Reserve(size_t new_capacity)] *)
Definition Reserve (new_capacity : size_t) (v : SimpleVector) : outcome SimpleVector :=
  if capacity_ v <? new_capacity then
    let new_items := ArrayPtr_new new_capacity in
    new_items ← std_copy (items_ v) 0 (0 + size_ v) new_items 0;
    Ok {| items_ := new_items; size_ := size_ v; capacity_ := new_capacity |}
  else Ok v.

(** [explicit SimpleVector(ReserveProxyObj reserve_items)] *)
Definition SimpleVector_reserved (reserve_items : ReserveProxyObj) : outcome SimpleVector :=
  Reserve (ReserveProxyObj_GetCapacity reserve_items) SimpleVector_default.

(** [Type& operator[](size_t index) noexcept]: the element read through the
    returned reference. *)
Definition subscript (index : size_t) (v : SimpleVector) : outcome T :=
  _ ← assert (index <? size_ v);
  load (items_ v) (N.to_nat index).

(** [Type& At(size_t index)]: the element read through the returned
    reference, and the object after the call. *)
Definition At (index : size_t) (v : SimpleVector) : outcome (T * SimpleVector) :=
  if size_ v <=? index then Fail out_of_range
  else x ← load (items_ v) (N.to_nat index); Ok (x, v).

(** [void Clear() noexcept] *)
Definition Clear (v : SimpleVector) : SimpleVector :=
  {| items_ := items_ v; size_ := 0; capacity_ := capacity_ v |}.

(** [void Fill(Iterator first, Iterator last)] on block [a]. *)
Definition Fill (a : list T) (first last : ptr) : outcome (list T) :=
  n ← range first last; fill_loop n (N.to_nat first) Type_default a.

(** [void Resize(size_t new_size)] *)
Definition Resize (new_size : size_t) (v : SimpleVector) : outcome SimpleVector :=
  if capacity_ v <? new_size then
    let new_capacity := N.max new_size (size_mul (capacity_ v) 2) in
    let new_items := ArrayPtr_new new_capacity in
    new_items ← Fill new_items 0 (0 + new_capacity);
    new_items ← std_move (items_ v) (begin v) (end_ v) new_items 0;
    Ok {| items_ := new_items; size_ := new_size; capacity_ := new_capacity |}
  else if (new_size <=? capacity_ v) && (size_ v <? new_size) then
    items ← Fill (items_ v) (end_ v) (end_ v + new_size);
    Ok {| items_ := items; size_ := new_size; capacity_ := capacity_ v |}
  else if (new_size <=? capacity_ v) && (new_size <? size_ v) then
    Ok {| items_ := items_ v; size_ := new_size; capacity_ := capacity_ v |}
  else Ok v.

(** [void PushBack(const Type& item)]; the [Type&&] overload is the same on
    values. *)
Definition PushBack (item : T) (v : SimpleVector) : outcome SimpleVector :=
  if size_ v =? capacity_ v then
    let new_size := size_add (size_ v) 1 in
    v ← Resize new_size v;
    items ← store (items_ v) (N.to_nat (size_sub (size_ v) 1)) item;
    Ok {| items_ := items; size_ := size_ v; capacity_ := capacity_ v |}
  else
    items ← store (items_ v) (N.to_nat (size_ v)) item;
    Ok {| items_ := items; size_ := size_add (size_ v) 1; capacity_ := capacity_ v |}.

(** [Iterator Insert(ConstIterator pos, const Type& value)]; the [Type&&]
    overload is the same on values. *)
Definition Insert (pos : ptr) (value : T) (v : SimpleVector)
    : outcome (ptr * SimpleVector) :=
  _ ← assert ((pos <=? end_ v) && (begin v <=? pos));
  let index : size_t := pos - 0 in
  if size_ v =? capacity_ v then
    let new_size := size_add (size_ v) 1 in
    v ← Resize new_size v;
    items ← std_copy_backward (items_ v) (0 + index) (0 + size_ v) (0 + size_ v + 1);
    items ← store items (N.to_nat index) value;
    Ok (0 + index, {| items_ := items; size_ := size_ v; capacity_ := capacity_ v |})
  else
    items ← std_copy_backward (items_ v) (0 + index) (0 + size_ v) (0 + size_ v + 1);
    items ← store items (N.to_nat index) value;
    Ok (0 + index,
        {| items_ := items; size_ := size_add (size_ v) 1; capacity_ := capacity_ v |}).

(** [void PopBack() noexcept] *)
Definition PopBack (v : SimpleVector) : outcome SimpleVector :=
  _ ← assert (negb (IsEmpty v));
  Ok {| items_ := items_ v; size_ := size_sub (size_ v) 1; capacity_ := capacity_ v |}.

(** [Iterator Erase(ConstIterator pos)] *)
Definition Erase (pos : ptr) (v : SimpleVector) : outcome (ptr * SimpleVector) :=
  _ ← assert ((pos <? end_ v) && (begin v <=? pos));
  let index : size_t := pos - 0 in
  let new_items := ArrayPtr_new (size_ v) in
  new_items ← std_move (items_ v) 0 (0 + index) new_items 0;
  new_items ← std_move (items_ v) (0 + index + 1) (0 + size_ v) new_items (0 + index);
  Ok (0 + index,
      {| items_ := new_items; size_ := size_sub (size_ v) 1; capacity_ := capacity_ v |}).

(** [bool operator==(const SimpleVector&, const SimpleVector&)] *)
Definition operator_eq (lhs rhs : SimpleVector) : outcome bool :=
  std_equal (items_ lhs) (begin lhs) (end_ lhs) (items_ rhs) (begin rhs).

(** [bool operator!=(const SimpleVector&, const SimpleVector&)] *)
Definition operator_ne (lhs rhs : SimpleVector) : outcome bool :=
  negb <$> operator_eq lhs rhs.

(** ** Objects at addresses

    Copy assignment compares addresses, so it is modelled on a store that maps
    the address of an object to its state. *)

Definition loc := N.

Definition deref (σ : gmap loc SimpleVector) (l : loc) : outcome SimpleVector :=
  match σ !! l with
  | Some v => Ok v
  | None => Fail dangling
  end.

(** [SimpleVector& operator=(const SimpleVector& rhs)].  The member [items_]
    sits at a fixed offset of its object, so [&items_ != &rhs.items_] compares
    the addresses of the two objects.  The result is the address of [*this]
    and the store after the call; the local [items_copy] dies at the end of
    its block. *)
Definition operator_assign (this rhs : loc) (σ : gmap loc SimpleVector)
    : outcome (loc * gmap loc SimpleVector) :=
  if bool_decide (this ≠ rhs) then
    r ← deref σ rhs;
    items_copy ← SimpleVector_copy r;
    t ← deref σ this;
    let '(t', _) := swap t items_copy in
    Ok (this, <[this := t']> σ)
  else Ok (this, σ).

(** ** The data model of the spec *)

(** The live range: the elements at the indices [0, size). *)
Definition live (v : SimpleVector) : list T := take (N.to_nat (size_ v)) (items_ v).

(** [0 <= size <= capacity], and every index in [0, capacity) is a slot of
    the owned buffer. *)
Definition Inv (v : SimpleVector) : Prop :=
  size_ v ≤ capacity_ v ∧ (N.to_nat (capacity_ v) ≤ length (items_ v))%nat.

(** The live range lies inside the owned block. *)
Definition live_allocated (v : SimpleVector) : Prop :=
  (N.to_nat (size_ v) ≤ length (items_ v))%nat.

(** The owned block is one that an allocation can return: an array holds at
    most [PTRDIFF_MAX] bytes. *)
Definition allocatable (v : SimpleVector) : Prop :=
  N.of_nat (length (items_ v)) ≤ PTRDIFF_MAX.

#[global] Instance Inv_dec v : Decision (Inv v).
Proof. unfold Inv. apply _. Defined.

End SimpleVector.

Arguments SimpleVector T : clear implicits.

(** [ReserveProxyObj Reserve(size_t capacity_to_reserve)] *)
Definition Reserve_proxy (capacity_to_reserve : size_t) : ReserveProxyObj :=
  mkReserveProxyObj capacity_to_reserve.

(** ** Runs of [SimpleVector<int>] *)

(** [SimpleVector<int> v; v.PushBack(1); v.PushBack(2); v.PushBack(3);] *)
Definition pushed_1 : outcome (SimpleVector Z) := PushBack 1%Z SimpleVector_default.
Definition pushed_12 : outcome (SimpleVector Z) := v ← pushed_1; PushBack 2%Z v.
Definition pushed_123 : outcome (SimpleVector Z) := v ← pushed_12; PushBack 3%Z v.

(** [SimpleVector<int> v{1, 2};] and [SimpleVector<int> v{1, 2, 3};] *)
Definition list_12 : outcome (SimpleVector Z) := SimpleVector_init [1; 2]%Z.
Definition list_123 : outcome (SimpleVector Z) := SimpleVector_init [1; 2; 3]%Z.

(** [SimpleVector<int> v(Reserve(2)); v.PushBack(7);] *)
Definition reserved_2_pushed_7 : outcome (SimpleVector Z) :=
  v ← SimpleVector_reserved (Reserve_proxy 2); PushBack 7%Z v.

(** ** The ordering operators *)

(** [operator<] of the element type. *)
Class ElemLt (T : Type) := Type_lt : T → T → bool.

(** [int]: the order of the integers. *)
#[global] Instance int_ElemLt : ElemLt Z := Z.ltb.

Section SimpleVector_order.

Context {T : Type} `{!ElemLt T}.

(** The loop of [std::lexicographical_compare]: while both ranges have an
    element left, return true if the left one is less, false if the right
    one is less, and step both otherwise; at the end return whether the left
    range is exhausted and the right one is not.  [n1] and [n2] count the
    elements left. *)
Fixpoint lexicographical_compare_loop (n1 n2 : nat) (a1 : list T) (first1 : nat)
    (a2 : list T) (first2 : nat) : outcome bool :=
  match n1, n2 with
  | S n1', S n2' =>
      x ← load a1 first1;
      y ← load a2 first2;
      if Type_lt x y then Ok true
      else if Type_lt y x then Ok false
      else lexicographical_compare_loop n1' n2' a1 (S first1) a2 (S first2)
  | O, S _ => Ok true
  | _, O => Ok false
  end.

(** [std::lexicographical_compare(first1, last1, first2, last2)] *)
Definition std_lexicographical_compare (a1 : list T) (first1 last1 : ptr)
    (a2 : list T) (first2 last2 : ptr) : outcome bool :=
  n1 ← range first1 last1;
  n2 ← range first2 last2;
  lexicographical_compare_loop n1 n2 a1 (N.to_nat first1) a2 (N.to_nat first2).

(** [bool operator<(const SimpleVector&, const SimpleVector&)] *)
Definition operator_lt (lhs rhs : SimpleVector T) : outcome bool :=
  std_lexicographical_compare (items_ lhs) (begin lhs) (end_ lhs)
    (items_ rhs) (begin rhs) (end_ rhs).

(** [bool operator<=(const SimpleVector&, const SimpleVector&)] *)
Definition operator_le (lhs rhs : SimpleVector T) : outcome bool :=
  negb <$> operator_lt rhs lhs.

(** [bool operator>(const SimpleVector&, const SimpleVector&)] *)
Definition operator_gt (lhs rhs : SimpleVector T) : outcome bool :=
  operator_lt rhs lhs.

(** [bool operator>=(const SimpleVector&, const SimpleVector&)] *)
Definition operator_ge (lhs rhs : SimpleVector T) : outcome bool :=
  negb <$> operator_lt lhs rhs.

(** The lexicographic order on sequences, to compare [operator<] with: a
    sequence is less than another when it is a proper prefix of it, or when
    at the first position where the two differ in the order its element is
    the lesser one. *)
Inductive lex_less : list T → list T → Prop :=
| lex_less_prefix y l2 : lex_less [] (y :: l2)
| lex_less_head x y l1 l2 : Type_lt x y = true → lex_less (x :: l1) (y :: l2)
| lex_less_tail x y l1 l2 :
    Type_lt x y = false → Type_lt y x = false →
    lex_less l1 l2 → lex_less (x :: l1) (y :: l2).

End SimpleVector_order.

(** ** Loops of callers *)

Section SimpleVector_callers.

Context {T : Type} `{!ValueInit T}.

(** [for (const Type& item : items) v.PushBack(item);] *)
Fixpoint PushBack_all (items : list T) (v : SimpleVector T) : outcome (SimpleVector T) :=
  match items with
  | [] => Ok v
  | item :: rest => v' ← PushBack item v; PushBack_all rest v'
  end.

End SimpleVector_callers.

(** Side conditions on a vector that is written out. *)
Ltac concrete :=
  unfold Inv, live_allocated, allocatable, PTRDIFF_MAX, size_t_modulus,
    GetSize, GetCapacity;
  simpl; lia.

Section SimpleVector_facts.

Context {T : Type} `{!ValueInit T, !EqDecision T}.
Implicit Types v : SimpleVector T.

(** ** Facts about the buffer accesses and the loops *)

Lemma wrap_small n : n < size_t_modulus → wrap n = n.
Proof. apply N.mod_small. Qed.

Lemma size_add_small a b : a + b < size_t_modulus → size_add a b = a + b.
Proof. apply wrap_small. Qed.

Lemma size_mul_small a b : a * b < size_t_modulus → size_mul a b = a * b.
Proof. apply wrap_small. Qed.

Lemma size_sub_small a b : b ≤ a → a < size_t_modulus → size_sub a b = a - b.
Proof.
  intros Hle Hlt. unfold size_sub, wrap.
  replace (a + size_t_modulus - b) with ((a - b) + 1 * size_t_modulus) by lia.
  rewrite N.Div0.mod_add. apply N.mod_small. lia.
Qed.

Lemma load_lookup (a : list T) i x : a !! i = Some x → load a i = Ok x.
Proof. unfold load. by intros ->. Qed.

Lemma store_lt (a : list T) i x : (i < length a)%nat → store a i x = Ok (<[i := x]> a).
Proof. intros H. unfold store. by rewrite decide_True. Qed.

Lemma store_ge (a : list T) i x : (length a ≤ i)%nat → store a i x = Fail out_of_bounds.
Proof. intros H. unfold store. rewrite decide_False; [done | lia]. Qed.

Lemma range_le first last :
  first ≤ last → range first last = Ok (N.to_nat last - N.to_nat first)%nat.
Proof.
  intros H. unfold range. destruct (N.ltb_spec last first); [lia |].
  f_equal. lia.
Qed.

(** The fill loop overwrites the slots [it, it + n) when they all exist. *)
Lemma fill_loop_ok n : ∀ it x (a : list T),
  (it + n ≤ length a)%nat →
  fill_loop n it x a = Ok (take it a ++ replicate n x ++ drop (it + n) a).
Proof.
  induction n as [| n IH]; intros it x a Hlen; simpl.
  - by rewrite Nat.add_0_r, take_drop.
  - unfold mbind, outcome_bind. rewrite store_lt by lia. simpl.
    rewrite IH by (rewrite length_insert; lia). f_equal.
    rewrite drop_insert_lt by lia.
    rewrite (take_S_r _ _ x) by (apply list_lookup_insert_eq; lia).
    rewrite take_insert_ge by lia.
    rewrite <- app_assoc. simpl. by rewrite Nat.add_succ_r.
Qed.

(** It runs off the block as soon as one of these slots does not exist. *)
Lemma fill_loop_fail n : ∀ it x (a : list T),
  (0 < n)%nat → (length a < it + n)%nat → fill_loop n it x a = Fail out_of_bounds.
Proof.
  induction n as [| n IH]; intros it x a Hpos Hlen; simpl; [lia |].
  unfold mbind, outcome_bind. destruct (decide (it < length a)%nat) as [Hlt | Hge].
  - rewrite store_lt by done. simpl. apply IH; rewrite ?length_insert; lia.
  - rewrite store_ge by lia. done.
Qed.

(** The copy loop moves [n] elements of [src] over the slots
    [d_first, d_first + n) of [dst]. *)
Lemma copy_loop_ok n : ∀ (src : list T) first (dst : list T) d_first,
  (first + n ≤ length src)%nat → (d_first + n ≤ length dst)%nat →
  copy_loop n src first dst d_first
  = Ok (take d_first dst ++ take n (drop first src) ++ drop (d_first + n) dst).
Proof.
  induction n as [| n IH]; intros src first dst d_first Hs Hd; simpl.
  - by rewrite Nat.add_0_r, take_drop.
  - destruct (lookup_lt_is_Some_2 src first) as [x Hx]; [lia |].
    unfold mbind, outcome_bind. rewrite (load_lookup _ _ _ Hx). simpl.
    rewrite store_lt by lia. simpl.
    rewrite IH by (rewrite ?length_insert; lia). f_equal.
    rewrite drop_insert_lt by lia.
    rewrite (take_S_r _ _ x) by (apply list_lookup_insert_eq; lia).
    rewrite take_insert_ge by lia.
    rewrite (drop_S _ _ _ Hx). simpl.
    rewrite <- app_assoc. simpl. by rewrite Nat.add_succ_r.
Qed.

(** Shifting right by one: [copy_backward(first, last, last + 1)] moves the
    [n] elements before [last] one slot up and leaves slot [first] as it was. *)
Lemma copy_backward_loop_shift n : ∀ (a : list T) last,
  (n ≤ last)%nat → (last < length a)%nat →
  copy_backward_loop n a last (S last)
  = Ok (take (S (last - n)) a ++ take n (drop (last - n) a) ++ drop (S last) a).
Proof.
  induction n as [| n IH]; intros a last Hn Hlast; simpl.
  - by rewrite Nat.sub_0_r, take_drop.
  - destruct last as [| last']; [lia |]. simpl.
    destruct (lookup_lt_is_Some_2 a last') as [x Hx]; [lia |].
    unfold mbind, outcome_bind. rewrite (load_lookup _ _ _ Hx). simpl.
    rewrite store_lt by lia. simpl.
    rewrite IH by (rewrite ?length_insert; lia). f_equal.
    rewrite take_insert_ge by lia.
    rewrite (drop_insert_ge _ (last' - n)) by lia.
    rewrite take_insert_ge by lia.
    rewrite drop_insert_ge by lia.
    replace (S last' - S last')%nat with 0%nat by lia.
    destruct (lookup_lt_is_Some_2 a (S last')) as [y Hy]; [lia |].
    rewrite (drop_S _ _ _ Hy). simpl.
    rewrite (take_S_r (drop (last' - n) a) n x)
      by (rewrite lookup_drop; rewrite <- Hx; f_equal; lia).
    by rewrite <- app_assoc.
Qed.

(** The same call overruns the block when slot [last] does not exist. *)
Lemma copy_backward_loop_overrun n (a : list T) last :
  (0 < n)%nat → (length a ≤ last)%nat →
  copy_backward_loop n a last (S last) = Fail out_of_bounds.
Proof.
  intros Hn Hlen. destruct n as [| n]; [lia |]. simpl.
  unfold mbind, outcome_bind, load. destruct (a !! pred last); simpl; [| done].
  by rewrite store_ge.
Qed.

(** On ranges that lie inside both blocks the loop of [std::equal] decides
    whether the two ranges hold the same elements in order. *)
Lemma equal_loop_ok n : ∀ (a1 : list T) first1 (a2 : list T) first2,
  (first1 + n ≤ length a1)%nat → (first2 + n ≤ length a2)%nat →
  equal_loop n a1 first1 a2 first2
  = Ok (bool_decide (take n (drop first1 a1) = take n (drop first2 a2))).
Proof.
  induction n as [| n IH]; intros a1 first1 a2 first2 H1 H2; simpl.
  - done.
  - destruct (lookup_lt_is_Some_2 a1 first1) as [x Hx]; [lia |].
    destruct (lookup_lt_is_Some_2 a2 first2) as [y Hy]; [lia |].
    unfold mbind, outcome_bind.
    rewrite (load_lookup _ _ _ Hx), (load_lookup _ _ _ Hy). simpl.
    rewrite (drop_S _ _ _ Hx), (drop_S _ _ _ Hy). simpl.
    destruct (decide (x = y)) as [-> | Hne].
    + rewrite bool_decide_true by done. rewrite IH by lia.
      f_equal. apply bool_decide_ext. split; [by intros -> | congruence].
    + rewrite !bool_decide_false; [done | congruence | done].
Qed.

(** ** The algorithms on pointer ranges *)

Lemma std_copy_ok (src dst : list T) (first last d_first : ptr) :
  first ≤ last →
  (N.to_nat last ≤ length src)%nat →
  (N.to_nat d_first + (N.to_nat last - N.to_nat first) ≤ length dst)%nat →
  std_copy src first last dst d_first
  = Ok (take (N.to_nat d_first) dst
        ++ take (N.to_nat last - N.to_nat first) (drop (N.to_nat first) src)
        ++ drop (N.to_nat d_first + (N.to_nat last - N.to_nat first)) dst).
Proof.
  intros Hle Hs Hd. unfold std_copy. rewrite range_le by done.
  unfold mbind, outcome_bind. simpl. apply copy_loop_ok; lia.
Qed.

Lemma Fill_ok (a : list T) (first last : ptr) :
  first ≤ last → (N.to_nat last ≤ length a)%nat →
  Fill a first last
  = Ok (take (N.to_nat first) a
        ++ replicate (N.to_nat last - N.to_nat first) Type_default
        ++ drop (N.to_nat last) a).
Proof.
  intros Hle Hlen. unfold Fill. rewrite range_le by done.
  unfold mbind, outcome_bind. simpl. rewrite fill_loop_ok by lia.
  do 4 f_equal. lia.
Qed.

Lemma Fill_overrun (a : list T) (first last : ptr) :
  first < last → (length a < N.to_nat last)%nat →
  Fill a first last = Fail out_of_bounds.
Proof.
  intros Hlt Hlen. unfold Fill. rewrite range_le by lia.
  unfold mbind, outcome_bind. simpl. apply fill_loop_fail; lia.
Qed.

Lemma Fill_new (c : size_t) : Fill (ArrayPtr_new c) 0 (0 + c) = Ok (ArrayPtr_new c).
Proof.
  unfold ArrayPtr_new. rewrite Fill_ok; [| lia | rewrite length_replicate; lia].
  f_equal. rewrite N.add_0_l. simpl. rewrite drop_replicate.
  replace (N.to_nat c - N.to_nat c)%nat with 0%nat by lia. simpl.
  rewrite app_nil_r. f_equal. lia.
Qed.

Lemma std_copy_backward_shift (a : list T) (first last : ptr) :
  first ≤ last → (N.to_nat last < length a)%nat →
  std_copy_backward a first last (last + 1)
  = Ok (take (S (N.to_nat first)) a
        ++ take (N.to_nat last - N.to_nat first) (drop (N.to_nat first) a)
        ++ drop (S (N.to_nat last)) a).
Proof.
  intros Hle Hlen. unfold std_copy_backward. rewrite range_le by done.
  unfold mbind, outcome_bind. simpl.
  replace (N.to_nat (last + 1)) with (S (N.to_nat last)) by lia.
  rewrite copy_backward_loop_shift by lia.
  by replace (N.to_nat last - (N.to_nat last - N.to_nat first))%nat
    with (N.to_nat first) by lia.
Qed.

Lemma std_copy_backward_overrun (a : list T) (first last : ptr) :
  first < last → (length a ≤ N.to_nat last)%nat →
  std_copy_backward a first last (last + 1) = Fail out_of_bounds.
Proof.
  intros Hlt Hlen. unfold std_copy_backward. rewrite range_le by lia.
  unfold mbind, outcome_bind. simpl.
  replace (N.to_nat (last + 1)) with (S (N.to_nat last)) by lia.
  apply copy_backward_loop_overrun; lia.
Qed.

(** ** Resize, case by case *)

(** [new_size > capacity_]: a fresh block of [max(new_size, capacity_ * 2)]
    slots, the live range in front, default values behind. *)
Lemma Resize_grow v new_size :
  (N.to_nat (size_ v) ≤ length (items_ v))%nat →
  size_ v ≤ capacity_ v →
  capacity_ v < new_size →
  let new_capacity := N.max new_size (size_mul (capacity_ v) 2) in
  Resize new_size v
  = Ok {| items_ := live v ++ replicate (N.to_nat new_capacity - N.to_nat (size_ v))
                                  Type_default;
          size_ := new_size;
          capacity_ := new_capacity |}.
Proof.
  intros Hlen Hsc Hlt new_capacity. unfold Resize.
  destruct (N.ltb_spec (capacity_ v) new_size) as [_ | ?]; [| lia].
  fold new_capacity. rewrite Fill_new. unfold mbind, outcome_bind. simpl.
  unfold std_move, begin, end_.
  assert (Hcap : size_ v ≤ new_capacity) by (unfold new_capacity; lia).
  rewrite std_copy_ok;
    [| lia | rewrite N.add_0_l; lia
     | unfold ArrayPtr_new; rewrite length_replicate; lia].
  simpl. do 2 f_equal. rewrite N.add_0_l. unfold live, ArrayPtr_new.
  rewrite Nat.sub_0_r, drop_replicate. done.
Qed.

(** [size_ < new_size <= capacity_]: the call fills [end(), end() + new_size),
    that is the slots [size_, size_ + new_size). *)
Lemma Resize_within v new_size :
  size_ v < new_size → new_size ≤ capacity_ v →
  (N.to_nat (size_ v + new_size) ≤ length (items_ v))%nat →
  Resize new_size v
  = Ok {| items_ := live v ++ replicate (N.to_nat new_size) Type_default
                      ++ drop (N.to_nat (size_ v + new_size)) (items_ v);
          size_ := new_size;
          capacity_ := capacity_ v |}.
Proof.
  intros Hlt Hle Hlen. unfold Resize.
  destruct (N.ltb_spec (capacity_ v) new_size) as [? | _]; [lia |].
  destruct (N.leb_spec new_size (capacity_ v)) as [_ | ?]; [| lia].
  destruct (N.ltb_spec (size_ v) new_size) as [_ | ?]; [| lia]. simpl.
  unfold end_. rewrite N.add_0_l. rewrite Fill_ok by lia.
  unfold mbind, outcome_bind. simpl.
  by replace (N.to_nat (size_ v + new_size) - N.to_nat (size_ v))%nat
    with (N.to_nat new_size) by lia.
Qed.

Lemma Resize_within_overrun v new_size :
  size_ v < new_size → new_size ≤ capacity_ v →
  (length (items_ v) < N.to_nat (size_ v + new_size))%nat →
  Resize new_size v = Fail out_of_bounds.
Proof.
  intros Hlt Hle Hlen. unfold Resize.
  destruct (N.ltb_spec (capacity_ v) new_size) as [? | _]; [lia |].
  destruct (N.leb_spec new_size (capacity_ v)) as [_ | ?]; [| lia].
  destruct (N.ltb_spec (size_ v) new_size) as [_ | ?]; [| lia]. simpl.
  unfold end_. rewrite N.add_0_l. rewrite Fill_overrun by lia. done.
Qed.

(** [new_size <= size_]: only the counter changes. *)
Lemma Resize_shrink v new_size :
  new_size ≤ size_ v → size_ v ≤ capacity_ v →
  Resize new_size v
  = Ok {| items_ := items_ v; size_ := new_size; capacity_ := capacity_ v |}.
Proof.
  intros Hle Hsc. unfold Resize.
  destruct (N.ltb_spec (capacity_ v) new_size) as [? | _]; [lia |].
  destruct (N.leb_spec new_size (capacity_ v)) as [_ | ?]; [| lia].
  destruct (N.ltb_spec (size_ v) new_size) as [? | _]; [lia |]. simpl.
  destruct (N.ltb_spec new_size (size_ v)) as [_ | ?]; [done |].
  destruct v as [items size capacity]; simpl in *. f_equal. f_equal. lia.
Qed.

(** ** PushBack *)

Lemma live_length v :
  (N.to_nat (size_ v) ≤ length (items_ v))%nat → length (live v) = N.to_nat (size_ v).
Proof. intros H. unfold live. by rewrite length_take_le. Qed.

Lemma PushBack_full v item :
  Inv v → allocatable v → size_ v = capacity_ v →
  PushBack item v
  = Ok {| items_ := live v ++ item
                      :: replicate (N.to_nat (N.max (size_ v + 1) (2 * capacity_ v))
                                    - S (N.to_nat (size_ v))) Type_default;
          size_ := size_ v + 1;
          capacity_ := N.max (size_ v + 1) (2 * capacity_ v) |}.
Proof.
  intros [Hsc Hcl] Hal Hfull. unfold allocatable, PTRDIFF_MAX in Hal.
  assert (Hbound : capacity_ v < 2 ^ 63) by lia.
  unfold PushBack. rewrite Hfull, N.eqb_refl.
  rewrite size_add_small by (unfold size_t_modulus; lia).
  rewrite Resize_grow by lia.
  rewrite size_mul_small by (unfold size_t_modulus; lia).
  unfold mbind, outcome_bind. simpl.
  rewrite size_sub_small by (unfold size_t_modulus; lia).
  rewrite (N.mul_comm (capacity_ v) 2), <- Hfull.
  set (c := N.max (size_ v + 1) (2 * size_ v)).
  assert (Hc : size_ v + 1 ≤ c) by (unfold c; lia).
  replace (N.to_nat (size_ v + 1 - 1)) with (length (live v) + 0)%nat
    by (rewrite live_length by lia; lia).
  rewrite store_lt
    by (rewrite length_app, length_replicate, live_length by lia; lia).
  simpl. rewrite insert_app_r.
  destruct (N.to_nat c - N.to_nat (size_ v))%nat as [| k] eqn:Hk; [lia |].
  simpl. by replace (N.to_nat c - S (N.to_nat (size_ v)))%nat with k by lia.
Qed.

Lemma PushBack_room v item :
  Inv v → allocatable v → size_ v ≠ capacity_ v →
  PushBack item v
  = Ok {| items_ := <[N.to_nat (size_ v) := item]> (items_ v);
          size_ := size_ v + 1;
          capacity_ := capacity_ v |}.
Proof.
  intros [Hsc Hcl] Hal Hroom. unfold allocatable, PTRDIFF_MAX in Hal.
  unfold PushBack. destruct (N.eqb_spec (size_ v) (capacity_ v)) as [? | _]; [done |].
  rewrite store_lt by lia. unfold mbind, outcome_bind. simpl.
  by rewrite size_add_small by (unfold size_t_modulus; lia).
Qed.

Lemma live_insert_end (a : list T) n x :
  (n < length a)%nat → take (S n) (<[n := x]> a) = take n a ++ [x].
Proof.
  intros H. rewrite (take_S_r _ _ x) by (by apply list_lookup_insert_eq).
  by rewrite take_insert_ge.
Qed.

(** ** PushBack (claim C6) *)

(** C6.  On a vector that satisfies the invariant of the data model,
    [PushBack(item)] succeeds, appends [item] behind the unchanged live range
    and increments the size.  When [size == capacity] it is [Resize(size + 1)],
    whose capacity is [max(size + 1, 2 * capacity)], followed by the write of
    [item] at the new last slot.  Otherwise it is the write of [item] at index
    [size] of the same block, with the capacity unchanged.  Starting empty and
    pushing 1, 2, 3 gives size 3, content [1, 2, 3] and the capacities
    0, 1, 2, 4. *)
Theorem PushBack_spec (v : SimpleVector T) (item : T) :
  Inv v → allocatable v →
  (∃ v', PushBack item v = Ok v'
     ∧ GetSize v' = GetSize v + 1
     ∧ live v' = live v ++ [item]
     ∧ (size_ v = capacity_ v →
          ∃ r, Resize (size_ v + 1) v = Ok r
             ∧ GetCapacity r = N.max (size_ v + 1) (2 * capacity_ v)
             ∧ live r = live v ++ [Type_default]
             ∧ GetCapacity v' = GetCapacity r
             ∧ items_ v' = <[N.to_nat (size_ v) := item]> (items_ r))
     ∧ (size_ v ≠ capacity_ v →
          GetCapacity v' = GetCapacity v
          ∧ items_ v' = <[N.to_nat (size_ v) := item]> (items_ v)))
  ∧ (∃ v1 v2 v3 : SimpleVector Z,
       PushBack 1%Z SimpleVector_default = Ok v1
       ∧ PushBack 2%Z v1 = Ok v2
       ∧ PushBack 3%Z v2 = Ok v3
       ∧ GetSize v3 = 3
       ∧ live v3 = [1; 2; 3]%Z
       ∧ [GetCapacity (SimpleVector_default (T := Z)); GetCapacity v1;
          GetCapacity v2; GetCapacity v3] = [0; 1; 2; 4]).
Proof.
  intros HInv Hal. split.
  - destruct (decide (size_ v = capacity_ v)) as [Hfull | Hroom].
    + pose proof HInv as [Hsc Hcl].
      assert (Hbound : capacity_ v < 2 ^ 63)
        by (unfold allocatable, PTRDIFF_MAX in Hal; lia).
      assert (Hlen : length (live v) = N.to_nat (size_ v))
        by (apply live_length; lia).
      eexists. split; [by apply PushBack_full |].
      unfold GetSize, GetCapacity. simpl. split; [done |]. split.
      { unfold live at 1. simpl.
        rewrite take_app_ge by lia.
        replace (N.to_nat (size_ v + 1) - length (live v))%nat with 1%nat by lia.
        done. }
      split; [| done]. intros _.
      eexists. split; [apply Resize_grow; lia |]. simpl.
      rewrite size_mul_small by (unfold size_t_modulus; lia).
      rewrite (N.mul_comm (capacity_ v) 2).
      set (c := N.max (size_ v + 1) (2 * capacity_ v)).
      assert (Hc : size_ v + 1 ≤ c) by (unfold c; lia).
      split; [done |].
      destruct (N.to_nat c - N.to_nat (size_ v))%nat as [| k] eqn:Hk; [lia |].
      split.
      { unfold live at 1. simpl. rewrite take_app_ge by lia.
        replace (N.to_nat (size_ v + 1) - length (live v))%nat with 1%nat by lia.
        done. }
      split; [done |].
      replace (N.to_nat (size_ v)) with (length (live v) + 0)%nat at 2 by lia.
      rewrite insert_app_r. simpl.
      by replace (N.to_nat c - S (N.to_nat (size_ v)))%nat with k by lia.
    + pose proof HInv as [Hsc Hcl].
      eexists. split; [by apply PushBack_room |].
      unfold GetSize, GetCapacity. simpl. split; [done |]. split.
      { unfold live. simpl.
        replace (N.to_nat (size_ v + 1)) with (S (N.to_nat (size_ v))) by lia.
        apply live_insert_end. lia. }
      split; [done |]. by intros _.
  - do 3 eexists. by vm_compute.
Qed.

(** ** At (claim C7) *)

(** C7.  [At(index)] throws [std::out_of_range] exactly when
    [index >= size]; on a vector whose live range lies inside its block and
    for [index < size] it does not fail, it yields the element at [index], and
    the vector after the call is the vector before it: same block, same size,
    same capacity. *)
Theorem At_spec (v : SimpleVector T) (index : size_t) :
  live_allocated v →
  (At index v = Fail out_of_range ↔ GetSize v ≤ index)
  ∧ (index < GetSize v →
       ∃ x, live v !! N.to_nat index = Some x
          ∧ items_ v !! N.to_nat index = Some x
          ∧ At index v = Ok (x, v)).
Proof.
  unfold live_allocated, GetSize. intros Hlen. split.
  - unfold At. destruct (N.leb_spec (size_ v) index) as [Hle | Hlt].
    + by split.
    + split; [| lia]. unfold mbind, outcome_bind, load.
      destruct (items_ v !! N.to_nat index); simpl; congruence.
  - intros Hlt.
    destruct (lookup_lt_is_Some_2 (items_ v) (N.to_nat index)) as [x Hx]; [lia |].
    exists x. split; [| split; [done |]].
    + unfold live. rewrite lookup_take_lt by lia. done.
    + unfold At. destruct (N.leb_spec (size_ v) index) as [Hle | _]; [lia |].
      by rewrite (load_lookup _ _ _ Hx).
Qed.

(** ** Move construction (claim C9) *)

Lemma Resize_moved_from (a : SimpleVector T) (new_size : positive) :
  Resize (N.pos new_size) (SimpleVector_move a).2
  = Resize (N.pos new_size) SimpleVector_default.
Proof. reflexivity. Qed.

(** C9.  Move construction from [a] yields a new object with the state [a]
    had (same block, size and capacity) and leaves [a] with size 0, capacity 0
    and an empty live range, in a state that satisfies the invariant of the
    data model.  The calls that can follow behave on the moved-from [a] as on
    a default-constructed vector: [PushBack], [Insert], [Erase], [PopBack],
    [At], and [Resize] and [Reserve] with a positive argument, give the same
    outcome on both. *)
Theorem SimpleVector_move_spec (a : SimpleVector T) :
  (SimpleVector_move a).1 = a
  ∧ GetSize (SimpleVector_move a).2 = 0
  ∧ GetCapacity (SimpleVector_move a).2 = 0
  ∧ IsEmpty (SimpleVector_move a).2 = true
  ∧ live (SimpleVector_move a).2 = []
  ∧ Inv (SimpleVector_move a).2
  ∧ (∀ item, PushBack item (SimpleVector_move a).2 = PushBack item SimpleVector_default)
  ∧ (∀ pos value, Insert pos value (SimpleVector_move a).2
                  = Insert pos value SimpleVector_default)
  ∧ (∀ pos, Erase pos (SimpleVector_move a).2 = Fail assertion_failed
            ∧ Erase pos (SimpleVector_default (T := T)) = Fail assertion_failed)
  ∧ (PopBack (SimpleVector_move a).2 = Fail assertion_failed
     ∧ PopBack (SimpleVector_default (T := T)) = Fail assertion_failed)
  ∧ (∀ index, At index (SimpleVector_move a).2 = Fail out_of_range
              ∧ At index (SimpleVector_default (T := T)) = Fail out_of_range)
  ∧ (∀ n : positive, Resize (N.pos n) (SimpleVector_move a).2
                     = Resize (N.pos n) SimpleVector_default)
  ∧ (∀ n : positive, Reserve (N.pos n) (SimpleVector_move a).2
                     = Reserve (N.pos n) SimpleVector_default).
Proof.
  split; [by destruct a |].
  do 4 (split; [done |]).
  split; [unfold Inv; simpl; lia |].
  split; [done |].
  split.
  { intros pos value. destruct pos as [| p]; reflexivity. }
  split.
  { intros pos. by destruct pos. }
  split; [done |].
  split.
  { intros index. by destruct index. }
  split; [intros n; apply Resize_moved_from | done].
Qed.

(** ** Copy assignment (claim C10) *)

(** C10.  Assigning the object at address [this] to itself returns the
    address [this] and leaves the store as it was, so the size, the capacity
    and every element of the object are unchanged.  The test is on the
    addresses alone: it does not read the object, and no copy is made (the
    result does not depend on what a copy of the object would give). *)
Theorem self_assignment (σ : gmap loc (SimpleVector T)) (this : loc) :
  operator_assign this this σ = Ok (this, σ)
  ∧ (∀ v σ', σ !! this = Some v →
       operator_assign this this σ = Ok (this, σ') →
       σ' !! this = Some v).
Proof.
  assert (H : operator_assign this this σ = Ok (this, σ)).
  { unfold operator_assign. rewrite bool_decide_false; [done | by intros ?]. }
  split; [done |]. intros v σ' Hv. rewrite H. by intros [= <-].
Qed.

(** ** Copy construction *)

(** The copy owns a block of [size] slots, the live range of [other], and
    records the capacity of [other]. *)
Lemma SimpleVector_copy_ok (other : SimpleVector T) :
  live_allocated other →
  SimpleVector_copy other
  = Ok {| items_ := live other; size_ := size_ other; capacity_ := capacity_ other |}.
Proof.
  unfold live_allocated. intros Hlen.
  unfold SimpleVector_copy, begin, end_, GetSize, GetCapacity, ArrayPtr_new.
  rewrite N.add_0_l.
  rewrite std_copy_ok; [| lia | lia | rewrite length_replicate; lia].
  unfold mbind, outcome_bind. simpl.
  rewrite Nat.sub_0_r, drop_replicate, Nat.sub_diag. simpl.
  by rewrite app_nil_r.
Qed.

(** ** Comparison *)

(** [operator==] compares the live range of [lhs] with as many leading slots
    of the block of [rhs]; the size of [rhs] is not read. *)
Lemma operator_eq_ok (lhs rhs : SimpleVector T) :
  live_allocated lhs →
  (N.to_nat (size_ lhs) ≤ length (items_ rhs))%nat →
  operator_eq lhs rhs
  = Ok (bool_decide (live lhs = take (N.to_nat (size_ lhs)) (items_ rhs))).
Proof.
  unfold live_allocated. intros Hl Hr.
  unfold operator_eq, std_equal, begin, end_. rewrite N.add_0_l.
  rewrite range_le by lia. unfold mbind, outcome_bind. simpl.
  rewrite Nat.sub_0_r. by rewrite equal_loop_ok by lia.
Qed.

Lemma operator_eq_same_size (lhs rhs : SimpleVector T) :
  live_allocated lhs → live_allocated rhs → size_ lhs = size_ rhs →
  operator_eq lhs rhs = Ok (bool_decide (live lhs = live rhs)).
Proof.
  unfold live_allocated. intros Hl Hr Heq.
  rewrite operator_eq_ok by (unfold live_allocated; lia).
  unfold live. by rewrite Heq.
Qed.

(** A proper prefix compares equal to the longer vector. *)
Lemma operator_eq_prefix (lhs rhs : SimpleVector T) :
  live_allocated lhs → live_allocated rhs →
  live lhs `prefix_of` live rhs →
  operator_eq lhs rhs = Ok true.
Proof.
  unfold live_allocated. intros Hl Hr [k Hk].
  assert (Hlen : (N.to_nat (size_ lhs) ≤ N.to_nat (size_ rhs))%nat).
  { apply (f_equal length) in Hk. rewrite length_app in Hk.
    rewrite !live_length in Hk by done. lia. }
  rewrite operator_eq_ok by (unfold live_allocated; lia).
  f_equal. apply bool_decide_eq_true.
  apply (f_equal (take (N.to_nat (size_ lhs)))) in Hk.
  unfold live in Hk at 1. rewrite take_take in Hk.
  rewrite Nat.min_l in Hk by lia.
  rewrite take_app_length' in Hk by (by rewrite live_length).
  done.
Qed.

(** ** Erase *)

Lemma Erase_ok (v : SimpleVector T) (pos : ptr) :
  live_allocated v → size_ v < size_t_modulus → pos < size_ v →
  Erase pos v
  = Ok (pos, {| items_ := delete (N.to_nat pos) (live v) ++ [Type_default];
                size_ := size_ v - 1;
                capacity_ := capacity_ v |}).
Proof.
  unfold live_allocated. intros Hlen Hmod Hpos.
  unfold Erase, begin, end_, std_move. rewrite !N.add_0_l, N.sub_0_r.
  destruct (N.ltb_spec pos (size_ v)) as [_ | ?]; [| lia].
  destruct (N.leb_spec 0 pos) as [_ | ?]; [| lia]. simpl.
  unfold mbind, outcome_bind. simpl.
  assert (Hnew : length (ArrayPtr_new (size_ v)) = N.to_nat (size_ v))
    by (unfold ArrayPtr_new; apply length_replicate).
  rewrite std_copy_ok by lia.
  change (N.to_nat 0) with 0%nat. simpl. rewrite Nat.sub_0_r, drop_0.
  rewrite std_copy_ok;
    [| lia | lia
     | rewrite length_app, length_take_le, length_drop, Hnew by lia; lia].
  simpl. rewrite size_sub_small by lia. do 3 f_equal.
  rewrite take_app_length' by (rewrite length_take_le; lia).
  rewrite drop_app_ge by (rewrite length_take_le; lia).
  rewrite length_take_le by lia.
  unfold ArrayPtr_new. rewrite !drop_replicate.
  replace (N.to_nat (size_ v) - N.to_nat pos
           - (N.to_nat pos + (N.to_nat (size_ v) - N.to_nat (pos + 1)) - N.to_nat pos))%nat
    with 1%nat by lia.
  simpl. rewrite delete_take_drop. unfold live.
  rewrite take_take, Nat.min_l by lia.
  rewrite <- app_assoc. f_equal. f_equal.
  rewrite take_drop_commute. f_equal; [lia |].
  f_equal. lia.
Qed.

Lemma Erase_live (v : SimpleVector T) (pos : ptr) :
  live_allocated v → size_ v < size_t_modulus → pos < size_ v →
  ∃ v', Erase pos v = Ok (pos, v')
      ∧ size_ v' = size_ v - 1
      ∧ capacity_ v' = capacity_ v
      ∧ length (items_ v') = N.to_nat (size_ v)
      ∧ live v' = delete (N.to_nat pos) (live v).
Proof.
  intros Hlen Hmod Hpos. eexists. split; [by apply Erase_ok |]. simpl.
  assert (Hd : length (delete (N.to_nat pos) (live v)) = N.to_nat (size_ v - 1)).
  { rewrite length_delete by (apply lookup_lt_is_Some_2; rewrite live_length; [lia | done]).
    rewrite live_length by done. lia. }
  split; [done |]. split; [done |]. split.
  - rewrite length_app, Hd. simpl. lia.
  - unfold live at 1. simpl. by rewrite take_app_length'.
Qed.

(** ** Insert *)

Lemma app_cons_assoc (l1 l2 l3 : list T) (x : T) :
  l1 ++ x :: l2 ++ l3 = (l1 ++ x :: l2) ++ l3.
Proof. by rewrite <- app_assoc. Qed.

(** Writing [value] at [pos] after the right shift of [pos, last). *)
Lemma shift_insert (a : list T) (pos last : nat) (value : T) :
  (pos ≤ last)%nat → (last < length a)%nat →
  <[pos := value]> (take (S pos) a ++ take (last - pos) (drop pos a) ++ drop (S last) a)
  = take pos a ++ value :: take (last - pos) (drop pos a) ++ drop (S last) a.
Proof.
  intros Hpos Hlast.
  destruct (lookup_lt_is_Some_2 a pos) as [y Hy]; [lia |].
  rewrite (take_S_r _ _ _ Hy), <- app_assoc.
  replace pos with (length (take pos a) + 0)%nat at 1
    by (rewrite length_take_le; lia).
  by rewrite insert_app_r.
Qed.

Lemma Insert_room (v : SimpleVector T) (pos : ptr) (value : T) :
  Inv v → allocatable v → pos ≤ size_ v → size_ v ≠ capacity_ v →
  ∃ v', Insert pos value v = Ok (pos, v')
      ∧ size_ v' = size_ v + 1
      ∧ capacity_ v' = capacity_ v
      ∧ length (items_ v') = length (items_ v)
      ∧ live v' = take (N.to_nat pos) (live v) ++ value :: drop (N.to_nat pos) (live v).
Proof.
  intros [Hsc Hcl] Hal Hpos Hroom. unfold allocatable, PTRDIFF_MAX in Hal.
  unfold Insert, begin, end_. rewrite !N.add_0_l, N.sub_0_r.
  destruct (N.leb_spec pos (size_ v)) as [_ | ?]; [| lia].
  destruct (N.leb_spec 0 pos) as [_ | ?]; [| lia]. simpl.
  destruct (N.eqb_spec (size_ v) (capacity_ v)) as [? | _]; [done |].
  unfold mbind, outcome_bind. simpl.
  rewrite std_copy_backward_shift by lia. simpl.
  rewrite store_lt.
  2:{ rewrite !length_app, !length_take_le, length_drop;
        rewrite ?length_drop; lia. }
  simpl. rewrite size_add_small by (unfold size_t_modulus; lia).
  eexists. split; [done |]. simpl.
  split; [done |]. split; [done |].
  rewrite shift_insert by lia. split.
  - rewrite !length_app. simpl.
    rewrite length_app, !length_take_le, length_drop;
      rewrite ?length_drop; lia.
  - unfold live. simpl.
    replace (N.to_nat (size_ v + 1))
      with (length (take (N.to_nat pos) (items_ v)
                    ++ value :: take (N.to_nat (size_ v) - N.to_nat pos)
                                  (drop (N.to_nat pos) (items_ v)))).
    2:{ rewrite length_app. simpl.
        rewrite !length_take_le; rewrite ?length_drop; lia. }
    rewrite app_cons_assoc, take_app_length.
    rewrite take_take, Nat.min_l by lia.
    by rewrite take_drop_commute, Nat.add_comm, Nat.sub_add by lia.
Qed.

(** The live range after the shift and the write, read off the block. *)
Lemma shifted_live (l rest : list T) (pos : nat) (value : T) (n : nat) :
  (pos ≤ length l)%nat → (length l < n)%nat → (n ≤ length (l ++ rest))%nat →
  take (S (length l))
    (take pos (l ++ rest) ++ value :: take (n - pos) (drop pos (l ++ rest))
     ++ drop (S n) (l ++ rest))
  = take pos l ++ value :: drop pos l.
Proof.
  intros Hpos Hn Hlen.
  rewrite (take_app_le l rest pos) by lia.
  rewrite (drop_app_le l rest pos) by lia.
  rewrite (take_app_ge (drop pos l) rest) by (rewrite length_drop; lia).
  rewrite <- app_assoc, app_cons_assoc.
  rewrite take_app_length'; [done |].
  rewrite length_app. simpl. rewrite length_take_le, length_drop by lia. lia.
Qed.

(** A full vector of at least two elements: the block doubles and the call
    succeeds. *)
Lemma Insert_full_ok (v : SimpleVector T) (pos : ptr) (value : T) :
  Inv v → allocatable v → pos ≤ size_ v → size_ v = capacity_ v → 2 ≤ size_ v →
  ∃ v', Insert pos value v = Ok (pos, v')
      ∧ size_ v' = size_ v + 1
      ∧ capacity_ v' = 2 * capacity_ v
      ∧ length (items_ v') = N.to_nat (2 * capacity_ v)
      ∧ live v' = take (N.to_nat pos) (live v) ++ value :: drop (N.to_nat pos) (live v).
Proof.
  intros [Hsc Hcl] Hal Hpos Hfull Htwo. unfold allocatable, PTRDIFF_MAX in Hal.
  assert (Hbound : capacity_ v < 2 ^ 63) by lia.
  assert (Hll : length (live v) = N.to_nat (size_ v)) by (apply live_length; lia).
  unfold Insert, begin, end_. rewrite !N.add_0_l, N.sub_0_r.
  destruct (N.leb_spec pos (size_ v)) as [_ | ?]; [| lia].
  destruct (N.leb_spec 0 pos) as [_ | ?]; [| lia]. simpl.
  destruct (N.eqb_spec (size_ v) (capacity_ v)) as [_ | ?]; [| done].
  rewrite size_add_small by (unfold size_t_modulus; lia).
  rewrite Resize_grow by lia.
  rewrite size_mul_small by (unfold size_t_modulus; lia).
  replace (N.max (size_ v + 1) (capacity_ v * 2)) with (2 * capacity_ v) by lia.
  unfold mbind, outcome_bind. simpl. rewrite !N.add_0_l.
  set (rest := replicate (N.to_nat (2 * capacity_ v) - N.to_nat (size_ v)) Type_default).
  assert (Hrest : length rest = N.to_nat (size_ v))
    by (unfold rest; rewrite length_replicate; lia).
  rewrite std_copy_backward_shift by (rewrite ?length_app; lia). simpl.
  rewrite store_lt.
  2:{ rewrite length_app, length_take_le by (rewrite length_app; lia). lia. }
  simpl. rewrite shift_insert by (rewrite ?length_app; lia).
  eexists. split; [done |]. simpl.
  split; [done |]. split; [done |]. split.
  - rewrite !length_app, length_take_le by (rewrite length_app; lia).
    simpl. rewrite length_app, length_take_le, !length_drop, length_app;
      rewrite ?length_drop, ?length_app; lia.
  - unfold live at 1. simpl.
    replace (N.to_nat (size_ v + 1)) with (S (length (live v))) by lia.
    apply shifted_live; rewrite ?length_app; lia.
Qed.

(** A full vector of at most one element: the block grows to [size + 1]
    slots only, and [copy_backward] writes slot [size + 1]. *)
Lemma Insert_full_overrun (v : SimpleVector T) (pos : ptr) (value : T) :
  live_allocated v → pos ≤ size_ v → size_ v = capacity_ v → size_ v ≤ 1 →
  Insert pos value v = Fail out_of_bounds.
Proof.
  unfold live_allocated. intros Hlen Hpos Hfull Hone.
  assert (Hll : length (live v) = N.to_nat (size_ v)) by (apply live_length; lia).
  unfold Insert, begin, end_. rewrite !N.add_0_l, N.sub_0_r.
  destruct (N.leb_spec pos (size_ v)) as [_ | ?]; [| lia].
  destruct (N.leb_spec 0 pos) as [_ | ?]; [| lia]. simpl.
  destruct (N.eqb_spec (size_ v) (capacity_ v)) as [_ | ?]; [| done].
  rewrite size_add_small by (unfold size_t_modulus; lia).
  rewrite Resize_grow by lia.
  rewrite size_mul_small by (unfold size_t_modulus; lia).
  replace (N.max (size_ v + 1) (capacity_ v * 2)) with (size_ v + 1) by lia.
  unfold mbind, outcome_bind. simpl. rewrite !N.add_0_l.
  rewrite std_copy_backward_overrun; [done | lia |].
  rewrite length_app, length_replicate. lia.
Qed.

(** ** Insert followed by Erase at the same position *)

Lemma delete_inserted (l : list T) (pos : nat) (value : T) :
  (pos ≤ length l)%nat →
  delete pos (take pos l ++ value :: drop pos l) = l.
Proof.
  intros Hpos. rewrite delete_take_drop.
  rewrite take_app_length' by (rewrite length_take_le; lia).
  replace (S pos) with (length (take pos l) + 1)%nat
    by (rewrite length_take_le; lia).
  rewrite <- drop_drop, drop_app_length. simpl.
  by rewrite drop_0, take_drop.
Qed.

(** Where [Insert] stays inside its block (the vector has room, or it is
    full with at least two elements), erasing at the returned position gives
    back the size and the live range the vector had. *)
Lemma Insert_then_Erase (v : SimpleVector T) (pos : ptr) (value : T) :
  Inv v → allocatable v → pos ≤ size_ v →
  size_ v ≠ capacity_ v ∨ 2 ≤ size_ v →
  ∃ v' v'', Insert pos value v = Ok (pos, v')
          ∧ Erase pos v' = Ok (pos, v'')
          ∧ size_ v'' = size_ v
          ∧ live v'' = live v.
Proof.
  intros HInv Hal Hpos Hcase.
  pose proof HInv as [Hsc Hcl].
  assert (Hbound : capacity_ v < 2 ^ 63)
    by (unfold allocatable, PTRDIFF_MAX in Hal; lia).
  assert (Hll : length (live v) = N.to_nat (size_ v)) by (apply live_length; lia).
  assert (∃ v', Insert pos value v = Ok (pos, v')
              ∧ size_ v' = size_ v + 1
              ∧ (N.to_nat (size_ v') ≤ length (items_ v'))%nat
              ∧ live v' = take (N.to_nat pos) (live v)
                            ++ value :: drop (N.to_nat pos) (live v))
    as (v' & HI & Hs' & Hl' & Hlive').
  { destruct (decide (size_ v = capacity_ v)) as [Hfull | Hroom].
    - destruct (Insert_full_ok v pos value) as (v' & ? & ? & ? & ? & ?);
        [done | done | done | done | by destruct Hcase |].
      exists v'. repeat split; try done. lia.
    - destruct (Insert_room v pos value) as (v' & ? & ? & ? & ? & ?);
        [done | done | done | done |].
      exists v'. repeat split; try done. lia. }
  destruct (Erase_live v' pos) as (v'' & HE & Hs'' & _ & _ & Hlive'');
    [done | unfold size_t_modulus; lia | lia |].
  exists v', v''. split; [done |]. split; [done |]. split; [lia |].
  rewrite Hlive'', Hlive'. apply delete_inserted. lia.
Qed.

(** ** The invariant of the data model *)

Lemma store_length (a a' : list T) i x : store a i x = Ok a' → length a' = length a.
Proof.
  unfold store. destruct (decide _); [| done].
  intros [= <-]. apply length_insert.
Qed.

Lemma fill_loop_length n : ∀ it x (a a' : list T),
  fill_loop n it x a = Ok a' → length a' = length a.
Proof.
  induction n as [| n IH]; intros it x a a'; simpl; [by intros [= <-] |].
  unfold mbind, outcome_bind. destruct (store a it x) as [b | f] eqn:Hb; simpl; [| done].
  intros H. rewrite (IH _ _ _ _ H). by eapply store_length.
Qed.

Lemma Fill_length (a a' : list T) first last :
  Fill a first last = Ok a' → length a' = length a.
Proof.
  unfold Fill, range, mbind, outcome_bind.
  destruct (last <? first); simpl; [done | apply fill_loop_length].
Qed.

Lemma SimpleVector_fill_ok (size : size_t) (value : T) :
  SimpleVector_fill size value
  = Ok {| items_ := replicate (N.to_nat size) value; size_ := size; capacity_ := size |}.
Proof.
  unfold SimpleVector_fill, std_fill, ArrayPtr_new. rewrite N.add_0_l.
  rewrite range_le by lia. unfold mbind, outcome_bind. simpl.
  rewrite fill_loop_ok by (rewrite length_replicate; lia). simpl.
  rewrite drop_replicate. change (N.to_nat 0) with 0%nat.
  rewrite !Nat.sub_0_r, Nat.sub_diag. simpl. by rewrite app_nil_r.
Qed.

Lemma SimpleVector_init_ok (init : list T) :
  SimpleVector_init init
  = Ok {| items_ := init;
          size_ := N.of_nat (length init);
          capacity_ := N.of_nat (length init) |}.
Proof.
  unfold SimpleVector_init, ArrayPtr_new.
  rewrite std_copy_ok; [| lia | lia | rewrite length_replicate; lia].
  unfold mbind, outcome_bind. simpl.
  change (N.to_nat 0) with 0%nat. rewrite Nat.sub_0_r, drop_0. simpl.
  rewrite drop_replicate, Nat2N.id, Nat.sub_diag, firstn_all. simpl.
  by rewrite app_nil_r.
Qed.

Lemma Reserve_ok (v : SimpleVector T) (new_capacity : size_t) :
  live_allocated v → size_ v ≤ capacity_ v → capacity_ v < new_capacity →
  Reserve new_capacity v
  = Ok {| items_ := live v ++ replicate (N.to_nat new_capacity - N.to_nat (size_ v))
                                  Type_default;
          size_ := size_ v;
          capacity_ := new_capacity |}.
Proof.
  unfold live_allocated. intros Hlen Hsc Hlt. unfold Reserve.
  destruct (N.ltb_spec (capacity_ v) new_capacity) as [_ | ?]; [| lia].
  rewrite N.add_0_l.
  rewrite std_copy_ok;
    [| lia | lia | unfold ArrayPtr_new; rewrite length_replicate; lia].
  unfold mbind, outcome_bind. simpl. unfold live, ArrayPtr_new.
  change (N.to_nat 0) with 0%nat. by rewrite Nat.sub_0_r, drop_0, drop_replicate.
Qed.

Lemma Reserve_no_op (v : SimpleVector T) (new_capacity : size_t) :
  new_capacity ≤ capacity_ v → Reserve new_capacity v = Ok v.
Proof.
  intros Hle. unfold Reserve.
  by destruct (N.ltb_spec (capacity_ v) new_capacity) as [? | _]; [lia |].
Qed.

Lemma Inv_live_allocated (v : SimpleVector T) : Inv v → live_allocated v.
Proof. unfold Inv, live_allocated. lia. Qed.

Lemma Resize_Inv (v v' : SimpleVector T) (new_size : size_t) :
  Inv v → Resize new_size v = Ok v' → Inv v'.
Proof.
  intros [Hsc Hcl] HR.
  destruct (N.lt_ge_cases (capacity_ v) new_size) as [Hgrow | Hfit].
  - rewrite Resize_grow in HR by lia. injection HR as <-.
    unfold Inv. simpl. rewrite length_app, length_replicate, live_length by lia. lia.
  - destruct (N.lt_ge_cases (size_ v) new_size) as [Hwithin | Hshrink].
    + unfold Resize in HR.
      destruct (N.ltb_spec (capacity_ v) new_size) as [? | _]; [lia |].
      destruct (N.leb_spec new_size (capacity_ v)) as [_ | ?]; [| lia].
      destruct (N.ltb_spec (size_ v) new_size) as [_ | ?]; [| lia].
      simpl in HR. unfold mbind, outcome_bind in HR.
      destruct (Fill (items_ v) (end_ v) (end_ v + new_size)) as [b | f] eqn:Hb;
        simpl in HR; [| done].
      injection HR as <-. unfold Inv. simpl.
      rewrite (Fill_length _ _ _ _ Hb). lia.
    + rewrite Resize_shrink in HR by lia. injection HR as <-.
      unfold Inv. simpl. lia.
Qed.

Lemma PushBack_Inv (v v' : SimpleVector T) (item : T) :
  Inv v → allocatable v → PushBack item v = Ok v' → Inv v'.
Proof.
  intros HInv Hal HP. pose proof HInv as [Hsc Hcl].
  destruct (decide (size_ v = capacity_ v)) as [Hfull | Hroom].
  - rewrite PushBack_full in HP by done. injection HP as <-.
    unfold Inv. simpl.
    rewrite length_app, live_length by lia. simpl. rewrite length_replicate. lia.
  - rewrite PushBack_room in HP by done. injection HP as <-.
    unfold Inv. simpl. rewrite length_insert. lia.
Qed.

Lemma Insert_Inv (v v' : SimpleVector T) (pos p : ptr) (value : T) :
  Inv v → allocatable v → Insert pos value v = Ok (p, v') → Inv v'.
Proof.
  intros HInv Hal HI. pose proof HInv as [Hsc Hcl].
  destruct (N.le_gt_cases pos (size_ v)) as [Hpos | Hpos].
  - destruct (decide (size_ v = capacity_ v)) as [Hfull | Hroom].
    + destruct (N.le_gt_cases 2 (size_ v)) as [Htwo | Hsmall].
      * destruct (Insert_full_ok v pos value) as (w & Hw & Hs & Hc & Hl & _);
          [done .. |].
        rewrite Hw in HI. injection HI as _ <-. unfold Inv. lia.
      * rewrite Insert_full_overrun in HI; [done | | done | done | lia].
        by apply Inv_live_allocated.
    + destruct (Insert_room v pos value) as (w & Hw & Hs & Hc & Hl & _);
        [done .. |].
      rewrite Hw in HI. injection HI as _ <-. unfold Inv. lia.
  - unfold Insert, end_ in HI.
    by rewrite (proj2 (N.leb_gt pos (0 + size_ v))) in HI by lia.
Qed.

Lemma PopBack_Inv (v v' : SimpleVector T) :
  Inv v → allocatable v → PopBack v = Ok v' → Inv v'.
Proof.
  intros [Hsc Hcl] Hal HP. unfold allocatable, PTRDIFF_MAX in Hal.
  unfold PopBack, IsEmpty in HP.
  destruct (N.eqb_spec (size_ v) 0) as [? | Hne]; [done |]. simpl in HP.
  injection HP as <-. unfold Inv. simpl.
  rewrite size_sub_small by (unfold size_t_modulus; lia). lia.
Qed.

Lemma Reserve_Inv (v v' : SimpleVector T) (new_capacity : size_t) :
  Inv v → Reserve new_capacity v = Ok v' → Inv v'.
Proof.
  intros [Hsc Hcl] HR.
  destruct (N.lt_ge_cases (capacity_ v) new_capacity) as [Hlt | Hge].
  - rewrite Reserve_ok in HR by (unfold live_allocated; lia). injection HR as <-.
    unfold Inv. simpl. rewrite length_app, length_replicate, live_length by lia. lia.
  - rewrite Reserve_no_op in HR by done. by injection HR as <-.
Qed.

(** ** What the calls do on every vector *)

Lemma allocatable_size_t (v : SimpleVector T) :
  live_allocated v → allocatable v → size_ v < size_t_modulus.
Proof. unfold live_allocated, allocatable, PTRDIFF_MAX, size_t_modulus. lia. Qed.

(** X1.  [SimpleVector(size, value)] gives [size() == capacity() == size] and
    [size] copies of [value]. *)
Theorem SimpleVector_fill_spec (size : size_t) (value : T) :
  ∃ v, SimpleVector_fill size value = Ok v
     ∧ GetSize v = size ∧ GetCapacity v = size
     ∧ live v = replicate (N.to_nat size) value
     ∧ Inv v.
Proof.
  eexists. split; [apply SimpleVector_fill_ok |].
  unfold GetSize, GetCapacity, live, Inv. simpl.
  rewrite length_replicate, take_replicate, Nat.min_id.
  repeat split; lia.
Qed.

(** X2.  [SimpleVector{x1, ..., xn}] holds the listed values in order, with
    [size() == capacity() == n]. *)
Theorem SimpleVector_init_spec (init : list T) :
  ∃ v, SimpleVector_init init = Ok v
     ∧ GetSize v = N.of_nat (length init)
     ∧ GetCapacity v = N.of_nat (length init)
     ∧ live v = init
     ∧ Inv v.
Proof.
  eexists. split; [apply SimpleVector_init_ok |].
  unfold GetSize, GetCapacity, live, Inv. simpl.
  rewrite Nat2N.id, firstn_all. repeat split; lia.
Qed.

(** X3.  The copy has the live range, the size and the recorded capacity of the
    source; its block has [size] slots. *)
Theorem SimpleVector_copy_spec (other : SimpleVector T) :
  live_allocated other →
  ∃ c, SimpleVector_copy other = Ok c
     ∧ live c = live other
     ∧ GetSize c = GetSize other
     ∧ GetCapacity c = GetCapacity other
     ∧ length (items_ c) = N.to_nat (GetSize other).
Proof.
  intros Hlen. eexists. split; [by apply SimpleVector_copy_ok |].
  unfold GetSize, GetCapacity. simpl.
  split; [| by rewrite live_length].
  unfold live at 1. simpl. rewrite take_ge; [done |].
  by rewrite live_length.
Qed.

(** X4.  [Reserve(c)] with [c <= capacity] changes nothing; with [c > capacity]
    it sets the capacity to [c] and keeps the size and the live range. *)
Theorem Reserve_spec (v : SimpleVector T) (new_capacity : size_t) :
  Inv v →
  (new_capacity ≤ GetCapacity v → Reserve new_capacity v = Ok v)
  ∧ (GetCapacity v < new_capacity →
       ∃ v', Reserve new_capacity v = Ok v'
           ∧ GetCapacity v' = new_capacity
           ∧ GetSize v' = GetSize v
           ∧ live v' = live v
           ∧ Inv v').
Proof.
  intros [Hsc Hcl]. unfold GetCapacity, GetSize. split.
  - apply Reserve_no_op.
  - intros Hlt. eexists. split; [apply Reserve_ok; unfold live_allocated; lia |].
    simpl. do 2 (split; [done |]). split.
    + unfold live at 1. simpl. by rewrite take_app_length' by (rewrite live_length; lia).
    + unfold Inv. simpl. rewrite length_app, length_replicate, live_length by lia. lia.
Qed.

(** X5.  [Resize(new_size)] with [new_size > capacity]: the capacity becomes
    [max(new_size, 2 * capacity)], the size [new_size], the old live range is
    kept in front and the new elements are default values. *)
Theorem Resize_grow_spec (v : SimpleVector T) (new_size : size_t) :
  Inv v → allocatable v → GetCapacity v < new_size →
  ∃ v', Resize new_size v = Ok v'
      ∧ GetCapacity v' = N.max new_size (2 * GetCapacity v)
      ∧ GetSize v' = new_size
      ∧ live v' = live v ++ replicate (N.to_nat new_size - N.to_nat (GetSize v))
                              Type_default
      ∧ Inv v'.
Proof.
  unfold GetCapacity, GetSize. intros [Hsc Hcl] Hal Hlt.
  unfold allocatable, PTRDIFF_MAX in Hal.
  eexists. split; [apply Resize_grow; lia |]. simpl.
  rewrite size_mul_small by (unfold size_t_modulus; lia).
  rewrite (N.mul_comm (capacity_ v) 2).
  set (c := N.max new_size (2 * capacity_ v)).
  assert (Hc : new_size ≤ c) by (unfold c; lia).
  do 2 (split; [done |]). split.
  - unfold live at 1. simpl.
    rewrite take_app_ge by (rewrite live_length; lia).
    rewrite live_length by lia. rewrite take_replicate. do 2 f_equal. lia.
  - unfold Inv. simpl. rewrite length_app, length_replicate, live_length by lia. lia.
Qed.

(** X6.  [Resize(new_size)] with [new_size <= size]: the size becomes [new_size];
    the block, and so the elements [0, new_size), and the capacity are
    unchanged. *)
Theorem Resize_shrink_spec (v : SimpleVector T) (new_size : size_t) :
  Inv v → new_size ≤ GetSize v →
  ∃ v', Resize new_size v = Ok v'
      ∧ GetSize v' = new_size
      ∧ GetCapacity v' = GetCapacity v
      ∧ items_ v' = items_ v
      ∧ live v' = take (N.to_nat new_size) (live v).
Proof.
  unfold GetCapacity, GetSize. intros [Hsc Hcl] Hle.
  eexists. split; [by apply Resize_shrink |]. simpl.
  do 3 (split; [done |]).
  unfold live. simpl. rewrite take_take. f_equal. lia.
Qed.

(** X7.  [Resize(new_size)] with [size < new_size <= capacity] fills the slots
    [size, size + new_size): it leaves the block exactly when
    [size + new_size] exceeds the number of slots. *)
Theorem Resize_within_spec (v : SimpleVector T) (new_size : size_t) :
  GetSize v < new_size → new_size ≤ GetCapacity v →
  ((length (items_ v) < N.to_nat (GetSize v + new_size))%nat →
     Resize new_size v = Fail out_of_bounds)
  ∧ ((N.to_nat (GetSize v + new_size) ≤ length (items_ v))%nat →
       Resize new_size v
       = Ok {| items_ := live v ++ replicate (N.to_nat new_size) Type_default
                           ++ drop (N.to_nat (size_ v + new_size)) (items_ v);
               size_ := new_size;
               capacity_ := capacity_ v |}).
Proof.
  unfold GetCapacity, GetSize. intros Hlt Hle. split.
  - by apply Resize_within_overrun.
  - by apply Resize_within.
Qed.

(** X8.  [Erase(pos)] for [begin() <= pos < end()] removes the element at [pos],
    keeps the order of the others, decrements the size and returns [pos].
    The recorded capacity is unchanged, and the new block has as many slots
    as the vector had elements. *)
Theorem Erase_spec (v : SimpleVector T) (pos : ptr) :
  live_allocated v → allocatable v → pos < GetSize v →
  ∃ v', Erase pos v = Ok (pos, v')
      ∧ GetSize v' = GetSize v - 1
      ∧ live v' = delete (N.to_nat pos) (live v)
      ∧ GetCapacity v' = GetCapacity v
      ∧ length (items_ v') = N.to_nat (GetSize v).
Proof.
  unfold GetCapacity, GetSize. intros Hlen Hal Hpos.
  destruct (Erase_live v pos) as (v' & HE & Hs & Hc & Hl & Hlive);
    [done | by apply allocatable_size_t | done |].
  by exists v'.
Qed.

(** X9.  [Insert(pos, value)] on a vector with room, or on a full vector of at
    least two elements, returns [pos] and puts [value] there, with the
    elements before and behind it in their order. *)
Theorem Insert_spec (v : SimpleVector T) (pos : ptr) (value : T) :
  Inv v → allocatable v → pos ≤ GetSize v →
  GetSize v ≠ GetCapacity v ∨ 2 ≤ GetSize v →
  ∃ v', Insert pos value v = Ok (pos, v')
      ∧ GetSize v' = GetSize v + 1
      ∧ live v' = take (N.to_nat pos) (live v) ++ value :: drop (N.to_nat pos) (live v)
      ∧ GetCapacity v' = (if decide (size_ v = capacity_ v)
                          then 2 * GetCapacity v else GetCapacity v)
      ∧ Inv v'.
Proof.
  unfold GetCapacity, GetSize. intros HInv Hal Hpos Hcase.
  destruct (decide (size_ v = capacity_ v)) as [Hfull | Hroom].
  - destruct (Insert_full_ok v pos value) as (v' & HI & Hs & Hc & Hl & Hlive);
      [done | done | done | done | by destruct Hcase |].
    exists v'. repeat split; try done; unfold Inv in HInv; lia.
  - destruct (Insert_room v pos value) as (v' & HI & Hs & Hc & Hl & Hlive);
      [done .. |].
    exists v'. repeat split; try done; unfold Inv in HInv; lia.
Qed.

(** X10.  [Insert] into a full vector of at most one element leaves the block it
    has just allocated. *)
Theorem Insert_small_full_overruns (v : SimpleVector T) (pos : ptr) (value : T) :
  Inv v → pos ≤ GetSize v → GetSize v = GetCapacity v → GetSize v ≤ 1 →
  Insert pos value v = Fail out_of_bounds.
Proof.
  intros HInv. apply Insert_full_overrun. by apply Inv_live_allocated.
Qed.

(** X11.  Where [Insert] stays inside its block, [Erase] at the returned position
    restores the size and the live range. *)
Theorem Insert_Erase_roundtrip (v : SimpleVector T) (pos : ptr) (value : T) :
  Inv v → allocatable v → pos ≤ GetSize v →
  GetSize v ≠ GetCapacity v ∨ 2 ≤ GetSize v →
  ∃ it v' v'', Insert pos value v = Ok (it, v')
             ∧ Erase it v' = Ok (it, v'')
             ∧ GetSize v'' = GetSize v
             ∧ live v'' = live v.
Proof.
  intros HInv Hal Hpos Hcase.
  destruct (Insert_then_Erase v pos value HInv Hal Hpos Hcase) as (v' & v'' & H).
  by exists pos, v', v''.
Qed.

(** X12.  [operator==] on two vectors of the same size decides whether the live
    ranges are equal; a vector compares equal to every vector that it is a
    prefix of. *)
Theorem operator_eq_spec (lhs rhs : SimpleVector T) :
  live_allocated lhs → live_allocated rhs →
  (GetSize lhs = GetSize rhs →
     operator_eq lhs rhs = Ok (bool_decide (live lhs = live rhs)))
  ∧ (live lhs `prefix_of` live rhs → operator_eq lhs rhs = Ok true).
Proof.
  intros Hl Hr. split.
  - by apply operator_eq_same_size.
  - by apply operator_eq_prefix.
Qed.

(** X13.  Every call but copy construction and [Erase] that returns on a vector
    satisfying the invariant returns a vector satisfying it. *)
Theorem Inv_preserved (v : SimpleVector T) :
  Inv v → allocatable v →
  (∀ item v', PushBack item v = Ok v' → Inv v')
  ∧ (∀ new_size v', Resize new_size v = Ok v' → Inv v')
  ∧ (∀ new_capacity v', Reserve new_capacity v = Ok v' → Inv v')
  ∧ (∀ pos value it v', Insert pos value v = Ok (it, v') → Inv v')
  ∧ (∀ v', PopBack v = Ok v' → Inv v')
  ∧ Inv (Clear v)
  ∧ (∀ other, Inv other → Inv (swap v other).1 ∧ Inv (swap v other).2)
  ∧ Inv (SimpleVector_move v).1 ∧ Inv (SimpleVector_move v).2.
Proof.
  intros HInv Hal.
  split; [intros item v'; by apply PushBack_Inv |].
  split; [intros n v'; by apply Resize_Inv |].
  split; [intros n v'; by apply Reserve_Inv |].
  split; [intros pos value it v'; by apply Insert_Inv |].
  split; [intros v'; by apply PopBack_Inv |].
  split; [unfold Inv in *; simpl; lia |].
  split; [intros other Ho; split; unfold Inv in *; simpl; lia |].
  split; unfold Inv in *; simpl; lia.
Qed.

End SimpleVector_facts.

Section SimpleVector_more_facts.

Context {T : Type} `{!ValueInit T, !EqDecision T}.
Implicit Types v : SimpleVector T.

(** ** Element access and PopBack *)

(** X17.  On a vector whose live range lies inside its block, [operator[]]
    and [At] return the same element, the one at [index] of the live range,
    for [index < size]; for [index >= size] the assert of [operator[]] fails
    where [At] throws. *)
Theorem subscript_spec v (index : size_t) :
  live_allocated v →
  (index < GetSize v →
     ∃ x, live v !! N.to_nat index = Some x
        ∧ subscript index v = Ok x
        ∧ At index v = Ok (x, v))
  ∧ (GetSize v ≤ index →
       subscript index v = Fail assertion_failed
       ∧ At index v = Fail out_of_range).
Proof.
  unfold live_allocated, GetSize. intros Hlen. split.
  - intros Hlt.
    destruct (lookup_lt_is_Some_2 (items_ v) (N.to_nat index)) as [x Hx]; [lia |].
    exists x. split; [unfold live; by rewrite lookup_take_lt by lia |].
    unfold subscript, At.
    destruct (N.ltb_spec index (size_ v)) as [_ | ?]; [| lia].
    destruct (N.leb_spec (size_ v) index) as [? | _]; [lia |].
    unfold mbind, outcome_bind. simpl. by rewrite (load_lookup _ _ _ Hx).
  - intros Hge. unfold subscript, At.
    destruct (N.ltb_spec index (size_ v)) as [? | _]; [lia |].
    by destruct (N.leb_spec (size_ v) index) as [_ | ?]; [| lia].
Qed.

Lemma PopBack_ok v :
  size_ v ≠ 0 → size_ v < size_t_modulus →
  PopBack v = Ok {| items_ := items_ v; size_ := size_ v - 1; capacity_ := capacity_ v |}.
Proof.
  intros Hne Hmod. unfold PopBack, IsEmpty.
  destruct (N.eqb_spec (size_ v) 0) as [? | _]; [done |]. simpl.
  by rewrite size_sub_small by lia.
Qed.

(** X18.  [PopBack] on an empty vector fails its assert.  On a non-empty
    vector it drops the last element of the live range and decrements the
    size; the block and the capacity are unchanged. *)
Theorem PopBack_spec v :
  live_allocated v → allocatable v →
  (GetSize v = 0 → PopBack v = Fail assertion_failed)
  ∧ (GetSize v ≠ 0 →
       ∃ v', PopBack v = Ok v'
           ∧ GetSize v' = GetSize v - 1
           ∧ live v' = removelast (live v)
           ∧ items_ v' = items_ v
           ∧ GetCapacity v' = GetCapacity v).
Proof.
  unfold GetSize, GetCapacity. intros Hlen Hal. split.
  - intros Hz. unfold PopBack, IsEmpty. by rewrite Hz.
  - intros Hne. eexists. split; [apply PopBack_ok; [done | by apply allocatable_size_t] |].
    simpl. split; [done |]. split; [| done].
    unfold live. simpl. unfold live_allocated in Hlen.
    rewrite removelast_firstn_len, length_take_le by lia.
    rewrite take_take. f_equal. lia.
Qed.

(** What one [PushBack] does to the size, the content, the capacity and the
    length of the block. *)
Lemma PushBack_step v (item : T) :
  Inv v → allocatable v →
  ∃ v', PushBack item v = Ok v'
      ∧ size_ v' = size_ v + 1
      ∧ live v' = live v ++ [item]
      ∧ Inv v'
      ∧ capacity_ v ≤ capacity_ v'
      ∧ capacity_ v' ≤ N.max (capacity_ v) (2 * size_ v')
      ∧ N.of_nat (length (items_ v'))
        ≤ N.max (N.of_nat (length (items_ v))) (2 * size_ v')
      ∧ (size_ v ≠ capacity_ v →
           capacity_ v' = capacity_ v ∧ length (items_ v') = length (items_ v)).
Proof.
  intros HInv Hal. pose proof HInv as [Hsc Hcl].
  assert (Hll : length (live v) = N.to_nat (size_ v)) by (apply live_length; lia).
  destruct (decide (size_ v = capacity_ v)) as [Hfull | Hroom].
  - eexists. split; [by apply PushBack_full |]. simpl.
    set (c := N.max (size_ v + 1) (2 * capacity_ v)).
    assert (Hc : size_ v + 1 ≤ c) by (unfold c; lia).
    split; [done |]. split.
    { unfold live at 1. simpl. rewrite take_app_ge by lia.
      by replace (N.to_nat (size_ v + 1) - length (live v))%nat with 1%nat by lia. }
    split.
    { unfold Inv. simpl. rewrite length_app. simpl. rewrite length_replicate. lia. }
    split; [unfold c; lia |]. split; [unfold c; lia |]. split; [| done].
    rewrite length_app. simpl. rewrite length_replicate. unfold c. lia.
  - eexists. split; [by apply PushBack_room |]. simpl.
    split; [done |]. split.
    { unfold live. simpl.
      replace (N.to_nat (size_ v + 1)) with (S (N.to_nat (size_ v))) by lia.
      apply live_insert_end. lia. }
    split; [unfold Inv; simpl; rewrite length_insert; lia |].
    rewrite length_insert. repeat split; lia.
Qed.

(** X19.  [PushBack] followed by [PopBack] gives back the size and the live
    range the vector had. *)
Theorem PushBack_PopBack v (item : T) :
  Inv v → allocatable v →
  ∃ v' v'', PushBack item v = Ok v'
          ∧ PopBack v' = Ok v''
          ∧ GetSize v'' = GetSize v
          ∧ live v'' = live v.
Proof.
  intros HInv Hal. pose proof HInv as [Hsc Hcl].
  unfold allocatable, PTRDIFF_MAX in Hal.
  destruct (PushBack_step v item HInv Hal) as (v' & HP & Hs & Hl & [Hsc' Hcl'] & _).
  exists v'. eexists. split; [done |].
  split; [apply PopBack_ok; unfold size_t_modulus; lia |].
  unfold GetSize. simpl. split; [lia |].
  unfold live at 1. simpl.
  replace (take (N.to_nat (size_ v' - 1)) (items_ v'))
    with (take (N.to_nat (size_ v' - 1)) (live v'))
    by (unfold live; rewrite take_take; f_equal; lia).
  rewrite Hl. rewrite take_app_length'; [done |].
  rewrite live_length by lia. lia.
Qed.

(** ** Copy assignment between two objects *)

(** X20.  Assigning the object at [rhs] to the object at a different address
    [this] gives [this] the live range, the size and the recorded capacity
    of [rhs], returns [this], and leaves [rhs] and every other object of the
    store untouched. *)
Theorem operator_assign_spec (σ : gmap loc (SimpleVector T)) (this rhs : loc)
    (t r : SimpleVector T) :
  this ≠ rhs → σ !! this = Some t → σ !! rhs = Some r → live_allocated r →
  ∃ σ' t', operator_assign this rhs σ = Ok (this, σ')
         ∧ σ' !! this = Some t'
         ∧ live t' = live r
         ∧ GetSize t' = GetSize r
         ∧ GetCapacity t' = GetCapacity r
         ∧ σ' !! rhs = Some r
         ∧ (∀ l, l ≠ this → σ' !! l = σ !! l).
Proof.
  intros Hne Ht Hr Hlen.
  unfold operator_assign, deref. rewrite bool_decide_true by done.
  rewrite Hr, Ht. unfold mbind, outcome_bind. simpl.
  rewrite SimpleVector_copy_ok by done. simpl.
  eexists. eexists. split; [done |].
  split; [apply lookup_insert_eq |]. unfold GetSize, GetCapacity. simpl.
  split.
  { unfold live at 1. simpl. rewrite take_ge; [done |]. by rewrite live_length. }
  do 2 (split; [done |]).
  split; [by rewrite lookup_insert_ne |].
  intros l Hl. by rewrite lookup_insert_ne.
Qed.

(** ** Sequences of PushBack *)

Lemma PushBack_all_ok (items : list T) : ∀ v,
  Inv v → allocatable v →
  2 * (size_ v + N.of_nat (length items)) ≤ PTRDIFF_MAX →
  ∃ v', PushBack_all items v = Ok v'
      ∧ size_ v' = size_ v + N.of_nat (length items)
      ∧ live v' = live v ++ items
      ∧ Inv v'
      ∧ capacity_ v ≤ capacity_ v'
      ∧ capacity_ v' ≤ N.max (capacity_ v) (2 * size_ v').
Proof.
  induction items as [| item rest IH]; intros v HInv Hal Hbound; simpl.
  - exists v. rewrite app_nil_r.
    split; [done |]. split; [lia |]. do 2 (split; [done |]). split; lia.
  - destruct (PushBack_step v item HInv Hal)
      as (v1 & HP & Hs & Hl & HInv1 & Hc1 & Hc2 & Hb & _).
    rewrite HP. unfold mbind, outcome_bind. simpl.
    assert (Hal1 : allocatable v1).
    { unfold allocatable in *. simpl in Hbound. lia. }
    destruct (IH v1 HInv1 Hal1) as (v' & HA & Hs' & Hl' & HInv' & Hc1' & Hc2').
    { simpl in Hbound. lia. }
    exists v'. split; [done |]. split; [simpl; lia |].
    split; [by rewrite Hl', Hl, <- app_assoc |].
    split; [done |]. split; lia.
Qed.

(** X21.  Pushing the elements of a list one after the other onto a vector
    that satisfies the invariant succeeds (as long as twice the final size is
    an allocatable number of slots), appends the list to the live range in
    order, and leaves a capacity that is the old one or at most twice the new
    size. *)
Theorem PushBack_all_spec (items : list T) v :
  Inv v → allocatable v →
  2 * (GetSize v + N.of_nat (length items)) ≤ PTRDIFF_MAX →
  ∃ v', PushBack_all items v = Ok v'
      ∧ GetSize v' = GetSize v + N.of_nat (length items)
      ∧ live v' = live v ++ items
      ∧ Inv v'
      ∧ GetCapacity v ≤ GetCapacity v'
      ∧ GetCapacity v' ≤ N.max (GetCapacity v) (2 * GetSize v').
Proof. apply PushBack_all_ok. Qed.

Lemma PushBack_all_room (items : list T) : ∀ v,
  Inv v → allocatable v →
  size_ v + N.of_nat (length items) ≤ capacity_ v →
  ∃ v', PushBack_all items v = Ok v'
      ∧ size_ v' = size_ v + N.of_nat (length items)
      ∧ live v' = live v ++ items
      ∧ capacity_ v' = capacity_ v
      ∧ length (items_ v') = length (items_ v)
      ∧ Inv v'.
Proof.
  induction items as [| item rest IH]; intros v HInv Hal Hroom; simpl.
  - exists v. rewrite app_nil_r.
    split; [done |]. split; [lia |]. by do 3 (split; [done |]).
  - destruct (PushBack_step v item HInv Hal)
      as (v1 & HP & Hs & Hl & HInv1 & _ & _ & _ & Hsame).
    destruct Hsame as [Hc1 Hb1]; [simpl in Hroom; lia |].
    rewrite HP. unfold mbind, outcome_bind. simpl.
    assert (Hal1 : allocatable v1) by (unfold allocatable in *; by rewrite Hb1).
    destruct (IH v1 HInv1 Hal1) as (v' & HA & Hs' & Hl' & Hc' & Hb' & HInv').
    { simpl in Hroom. lia. }
    exists v'. split; [done |]. split; [simpl; lia |].
    split; [by rewrite Hl', Hl, <- app_assoc |].
    split; [lia |]. split; [lia | done].
Qed.

(** X22.  While the elements still fit into the capacity, a sequence of
    [PushBack] does not reallocate: the capacity and the number of slots of
    the block stay as they were. *)
Theorem PushBack_all_within_capacity (items : list T) v :
  Inv v → allocatable v →
  GetSize v + N.of_nat (length items) ≤ GetCapacity v →
  ∃ v', PushBack_all items v = Ok v'
      ∧ GetSize v' = GetSize v + N.of_nat (length items)
      ∧ live v' = live v ++ items
      ∧ GetCapacity v' = GetCapacity v
      ∧ length (items_ v') = length (items_ v)
      ∧ Inv v'.
Proof. apply PushBack_all_room. Qed.

Lemma SimpleVector_reserved_ok (c : size_t) :
  SimpleVector_reserved (Reserve_proxy c)
  = Ok {| items_ := replicate (N.to_nat c) Type_default; size_ := 0; capacity_ := c |}.
Proof.
  unfold SimpleVector_reserved, Reserve_proxy, ReserveProxyObj_GetCapacity. simpl.
  destruct (N.eq_dec c 0) as [-> | Hne].
  - reflexivity.
  - rewrite Reserve_ok; [| unfold live_allocated; simpl; lia | simpl; lia | simpl; lia].
    simpl. by rewrite Nat.sub_0_r.
Qed.

(** X23.  [SimpleVector(Reserve(c))] is an empty vector of capacity [c]
    with a block of [c] slots, and pushing up to [c] elements onto it keeps
    that capacity and that block length. *)
Theorem SimpleVector_reserved_spec (c : size_t) (items : list T) :
  c ≤ PTRDIFF_MAX → N.of_nat (length items) ≤ c →
  ∃ v v', SimpleVector_reserved (Reserve_proxy c) = Ok v
        ∧ GetSize v = 0 ∧ GetCapacity v = c ∧ IsEmpty v = true
        ∧ length (items_ v) = N.to_nat c
        ∧ Inv v
        ∧ PushBack_all items v = Ok v'
        ∧ live v' = items
        ∧ GetCapacity v' = c
        ∧ length (items_ v') = N.to_nat c.
Proof.
  intros Hc Hlen.
  set (v := {| items_ := replicate (N.to_nat c) Type_default; size_ := 0; capacity_ := c |}).
  assert (HInv : Inv v) by (unfold Inv; simpl; rewrite length_replicate; lia).
  assert (Hal : allocatable v) by (unfold allocatable; simpl; rewrite length_replicate; lia).
  destruct (PushBack_all_room items v HInv Hal) as (v' & HA & _ & Hl & Hcap & Hb & _);
    [simpl; lia |].
  exists v, v'. split; [apply SimpleVector_reserved_ok |].
  unfold GetSize, GetCapacity. simpl.
  do 3 (split; [done |]). split; [apply length_replicate |].
  split; [done |]. split; [done |]. split; [done |]. split; [done |].
  rewrite Hb. apply length_replicate.
Qed.

(** ** Clear *)

(** X24.  [Clear] empties the vector and keeps its capacity: every [At]
    throws afterwards, and pushing the old elements again gives back the live
    range and the size without a reallocation. *)
Theorem Clear_then_refill v :
  Inv v → allocatable v →
  GetSize (Clear v) = 0
  ∧ GetCapacity (Clear v) = GetCapacity v
  ∧ live (Clear v) = []
  ∧ (∀ index, At index (Clear v) = Fail out_of_range)
  ∧ ∃ v', PushBack_all (live v) (Clear v) = Ok v'
        ∧ live v' = live v
        ∧ GetSize v' = GetSize v
        ∧ GetCapacity v' = GetCapacity v
        ∧ length (items_ v') = length (items_ v).
Proof.
  intros HInv Hal. pose proof HInv as [Hsc Hcl].
  assert (Hll : length (live v) = N.to_nat (size_ v)) by (apply live_length; lia).
  do 3 (split; [done |]). split.
  { intros index. unfold At. simpl. by destruct index. }
  assert (HInv0 : Inv (Clear v)) by (unfold Inv; simpl; lia).
  destruct (PushBack_all_room (live v) (Clear v) HInv0 Hal)
    as (v' & HA & Hs & Hl & Hc & Hb & _); [simpl; lia |].
  exists v'. split; [done |]. split; [done |].
  unfold GetSize, GetCapacity. simpl in *. split; [lia | done].
Qed.

(** ** Copies compare equal *)

(** X25.  A copy compares equal to the vector it was made from, in both
    orders, and [!=] is false. *)
Theorem copy_compares_equal v :
  live_allocated v →
  ∃ c, SimpleVector_copy v = Ok c
     ∧ operator_eq v c = Ok true
     ∧ operator_eq c v = Ok true
     ∧ operator_ne v c = Ok false
     ∧ operator_ne c v = Ok false.
Proof.
  intros Hlen. eexists. split; [by apply SimpleVector_copy_ok |].
  set (c := {| items_ := live v; size_ := size_ v; capacity_ := capacity_ v |}).
  assert (Hc : live_allocated c)
    by (unfold live_allocated; simpl; by rewrite live_length).
  assert (Hlive : live c = live v).
  { unfold live at 1. simpl. rewrite take_ge; [done |]. by rewrite live_length. }
  assert (H1 : operator_eq v c = Ok true).
  { rewrite operator_eq_same_size by done. by rewrite Hlive, bool_decide_true. }
  assert (H2 : operator_eq c v = Ok true).
  { rewrite operator_eq_same_size by done. by rewrite Hlive, bool_decide_true. }
  unfold operator_ne. by rewrite H1, H2.
Qed.

(** ** Calls that coincide *)

(** X26.  Where [Insert] stays inside its block (the vector has room, or is
    full with at least two elements), [Insert(end(), item)] returns the old
    [end()] and leaves the same live range, size and capacity as
    [PushBack(item)]. *)
Theorem Insert_at_end_is_PushBack v (item : T) :
  Inv v → allocatable v →
  GetSize v ≠ GetCapacity v ∨ 2 ≤ GetSize v →
  ∃ vi vp, Insert (end_ v) item v = Ok (end_ v, vi)
         ∧ PushBack item v = Ok vp
         ∧ live vi = live v ++ [item]
         ∧ live vp = live v ++ [item]
         ∧ GetSize vi = GetSize vp
         ∧ GetCapacity vi = GetCapacity vp.
Proof.
  unfold GetSize, GetCapacity, end_. rewrite N.add_0_l.
  intros HInv Hal Hcase. pose proof HInv as [Hsc Hcl].
  assert (Hll : length (live v) = N.to_nat (size_ v)) by (apply live_length; lia).
  assert (Hend : ∀ x : T, take (N.to_nat (size_ v)) (live v)
                            ++ x :: drop (N.to_nat (size_ v)) (live v)
                          = live v ++ [x]).
  { intros x. by rewrite take_ge, drop_ge by lia. }
  destruct (PushBack_step v item HInv Hal) as (vp & HP & Hsp & Hlp & _).
  destruct (decide (size_ v = capacity_ v)) as [Hfull | Hroom].
  - destruct (Insert_full_ok v (size_ v) item) as (vi & HI & Hs & Hc & _ & Hl);
      [done | done | lia | done | by destruct Hcase |].
    exists vi, vp. rewrite Hl, Hend.
    do 4 (split; [done |]). split; [lia |].
    rewrite PushBack_full in HP by done. injection HP as <-. simpl. lia.
  - destruct (Insert_room v (size_ v) item) as (vi & HI & Hs & Hc & _ & Hl);
      [done | done | lia | done |].
    exists vi, vp. rewrite Hl, Hend.
    do 4 (split; [done |]). split; [lia |].
    rewrite PushBack_room in HP by done. injection HP as <-. simpl. lia.
Qed.

(** X27.  On a non-empty vector, [Erase(end() - 1)] returns the new [end()]
    and leaves the same live range, size and recorded capacity as
    [PopBack()]; [Erase] moves the elements to a new block of [size] slots,
    [PopBack] keeps the block. *)
Theorem Erase_last_is_PopBack v :
  live_allocated v → allocatable v → GetSize v ≠ 0 →
  ∃ ve vp, Erase (end_ v - 1) v = Ok (end_ ve, ve)
         ∧ PopBack v = Ok vp
         ∧ live ve = removelast (live v)
         ∧ live vp = removelast (live v)
         ∧ GetSize ve = GetSize vp
         ∧ GetCapacity ve = GetCapacity vp
         ∧ length (items_ ve) = N.to_nat (GetSize v)
         ∧ items_ vp = items_ v.
Proof.
  unfold GetSize, GetCapacity, end_. rewrite N.add_0_l.
  intros Hlen Hal Hne.
  assert (Hmod : size_ v < size_t_modulus) by (by apply allocatable_size_t).
  assert (Hll : length (live v) = N.to_nat (size_ v)) by (by apply live_length).
  destruct (Erase_live v (size_ v - 1)) as (ve & HE & Hs & Hc & Hb & Hl);
    [done | done | lia |].
  exists ve. eexists. rewrite N.add_0_l, Hs.
  split; [done |]. split; [by apply PopBack_ok |]. simpl.
  assert (Hrl : removelast (live v) = take (N.to_nat (size_ v - 1)) (live v)).
  { rewrite removelast_firstn_len, Hll. f_equal. lia. }
  split.
  { rewrite Hl, Hrl, delete_take_drop.
    rewrite (drop_ge (live v)) by lia. by rewrite app_nil_r. }
  split.
  { rewrite Hrl. unfold live. simpl. rewrite take_take. f_equal. lia. }
  by do 3 (split; [done |]).
Qed.

(** ** Resize *)

(** X28.  [Resize(size)] on a default-constructed vector gives the vector
    that [SimpleVector(size)] constructs: [size] default values, with
    capacity [size]. *)
Theorem Resize_on_default_is_sized (size : size_t) :
  Resize size (SimpleVector_default (T := T)) = SimpleVector_sized size
  ∧ SimpleVector_sized size
    = Ok {| items_ := replicate (N.to_nat size) Type_default;
            size_ := size;
            capacity_ := size |}.
Proof.
  unfold SimpleVector_sized. rewrite SimpleVector_fill_ok. split; [| done].
  destruct (N.eq_dec size 0) as [-> | Hne]; [reflexivity |].
  rewrite Resize_grow; [| simpl; lia | simpl; lia | simpl; lia].
  simpl. change (size_mul 0 2) with 0. rewrite N.max_l by lia.
  by rewrite Nat.sub_0_r.
Qed.

(** X29.  Growing a vector past its capacity with [Resize] and resizing
    back to the old size gives back the size and the live range; the
    capacity stays at the grown value. *)
Theorem Resize_grow_then_shrink v (new_size : size_t) :
  Inv v → allocatable v → GetCapacity v < new_size →
  ∃ v' v'', Resize new_size v = Ok v'
          ∧ Resize (GetSize v) v' = Ok v''
          ∧ GetSize v'' = GetSize v
          ∧ live v'' = live v
          ∧ GetCapacity v'' = N.max new_size (2 * GetCapacity v).
Proof.
  unfold GetSize, GetCapacity. intros [Hsc Hcl] Hal Hlt.
  unfold allocatable, PTRDIFF_MAX in Hal.
  assert (Hll : length (live v) = N.to_nat (size_ v)) by (apply live_length; lia).
  eexists. eexists. split; [apply Resize_grow; lia |].
  split; [apply Resize_shrink; simpl; lia |]. simpl.
  split; [done |]. split.
  - unfold live at 1. simpl. by rewrite take_app_length'.
  - rewrite size_mul_small by (unfold size_t_modulus; lia). lia.
Qed.

End SimpleVector_more_facts.

Section SimpleVector_order_facts.

Context {T : Type} `{!ValueInit T, !EqDecision T, !ElemLt T}.
Implicit Types v lhs rhs : SimpleVector T.

(** ** The ordering operators *)

Lemma lex_less_nil_r (l : list T) : ¬ lex_less l [].
Proof. intros H. inversion H. Qed.

Lemma lex_less_cons (x y : T) (l1 l2 : list T) :
  lex_less (x :: l1) (y :: l2)
  ↔ Type_lt x y = true
    ∨ (Type_lt x y = false ∧ Type_lt y x = false ∧ lex_less l1 l2).
Proof.
  split.
  - intros H. inversion H; subst; [by left | by right].
  - intros [H | (H1 & H2 & H3)]; [by apply lex_less_head | by apply lex_less_tail].
Qed.

(** On ranges inside their blocks the loop does not fail and decides the
    lexicographic order of the two ranges. *)
Lemma lexicographical_compare_loop_ok n1 : ∀ n2 (a1 : list T) first1 (a2 : list T) first2,
  (first1 + n1 ≤ length a1)%nat → (first2 + n2 ≤ length a2)%nat →
  ∃ b, lexicographical_compare_loop n1 n2 a1 first1 a2 first2 = Ok b
     ∧ (b = true ↔ lex_less (take n1 (drop first1 a1)) (take n2 (drop first2 a2))).
Proof.
  induction n1 as [| n1 IH]; intros n2 a1 first1 a2 first2 H1 H2.
  - destruct n2 as [| n2]; simpl.
    + exists false. split; [done |]. split; [done |].
      intros H. by apply lex_less_nil_r in H.
    + destruct (lookup_lt_is_Some_2 a2 first2) as [y Hy]; [lia |].
      exists true. split; [done |]. split; [| done]. intros _.
      rewrite (drop_S _ _ _ Hy). simpl. apply lex_less_prefix.
  - destruct n2 as [| n2].
    + exists false. split; [done |]. split; [done |].
      intros H. by apply lex_less_nil_r in H.
    + destruct (lookup_lt_is_Some_2 a1 first1) as [x Hx]; [lia |].
      destruct (lookup_lt_is_Some_2 a2 first2) as [y Hy]; [lia |].
      simpl. unfold mbind, outcome_bind.
      rewrite (load_lookup _ _ _ Hx), (load_lookup _ _ _ Hy). simpl.
      rewrite (drop_S _ _ _ Hx), (drop_S _ _ _ Hy). simpl.
      destruct (Type_lt x y) eqn:Hxy.
      * exists true. split; [done |]. rewrite lex_less_cons. split; [by left | done].
      * destruct (Type_lt y x) eqn:Hyx.
        -- exists false. split; [done |]. rewrite lex_less_cons. split; [done |].
           intros [? | (_ & ? & _)]; congruence.
        -- destruct (IH n2 a1 (S first1) a2 (S first2)) as (b & Hb & Hiff);
             [lia | lia |].
           exists b. split; [done |]. rewrite lex_less_cons, Hiff. split.
           ++ intros ?. by right.
           ++ intros [? | (_ & _ & ?)]; [congruence | done].
Qed.

Lemma operator_lt_ok lhs rhs :
  live_allocated lhs → live_allocated rhs →
  ∃ b, operator_lt lhs rhs = Ok b ∧ (b = true ↔ lex_less (live lhs) (live rhs)).
Proof.
  unfold live_allocated. intros Hl Hr.
  unfold operator_lt, std_lexicographical_compare, begin, end_.
  rewrite !N.add_0_l. rewrite !range_le by lia.
  unfold mbind, outcome_bind. simpl.
  change (N.to_nat 0) with 0%nat. rewrite !Nat.sub_0_r.
  destruct (lexicographical_compare_loop_ok (N.to_nat (size_ lhs)) (N.to_nat (size_ rhs))
              (items_ lhs) 0 (items_ rhs) 0) as (b & Hb & Hiff); [lia | lia |].
  exists b. split; [done |]. by rewrite Hiff, !drop_0.
Qed.

(** A proper prefix is less. *)
Lemma lex_less_app (l k : list T) (x : T) :
  (∀ y, Type_lt y y = false) → lex_less l (l ++ x :: k).
Proof.
  intros Hirr. induction l as [| y l IH]; simpl.
  - apply lex_less_prefix.
  - by apply lex_less_tail.
Qed.

Lemma lex_less_irrefl (l : list T) :
  (∀ y, Type_lt y y = false) → ¬ lex_less l l.
Proof.
  intros Hirr. induction l as [| y l IH]; intros H.
  - by apply lex_less_nil_r in H.
  - apply lex_less_cons in H. destruct H as [H | (_ & _ & H)]; [| done].
    by rewrite Hirr in H.
Qed.

Lemma lex_less_asym (l1 : list T) :
  (∀ x y, Type_lt x y = true → Type_lt y x = false) →
  ∀ l2, lex_less l1 l2 → ¬ lex_less l2 l1.
Proof.
  intros Hasym. induction l1 as [| x l1 IH]; intros l2 H12 H21.
  - by apply lex_less_nil_r in H21.
  - destruct l2 as [| y l2]; [by apply lex_less_nil_r in H12 |].
    apply lex_less_cons in H12. apply lex_less_cons in H21.
    destruct H12 as [Hxy | (Hxy & Hyx & H12)].
    + destruct H21 as [Hyx | (Hyx & Hxy' & _)].
      * apply Hasym in Hxy. congruence.
      * congruence.
    + destruct H21 as [Hyx' | (_ & _ & H21)]; [congruence |].
      by apply (IH l2).
Qed.

Lemma lex_less_total (l1 : list T) :
  (∀ x y, Type_lt x y = false → Type_lt y x = false → x = y) →
  ∀ l2, l1 = l2 ∨ lex_less l1 l2 ∨ lex_less l2 l1.
Proof.
  intros Htri. induction l1 as [| x l1 IH]; intros l2.
  - destruct l2 as [| y l2]; [by left |]. right. left. apply lex_less_prefix.
  - destruct l2 as [| y l2]; [right; right; apply lex_less_prefix |].
    destruct (Type_lt x y) eqn:Hxy; [right; left; by apply lex_less_head |].
    destruct (Type_lt y x) eqn:Hyx; [right; right; by apply lex_less_head |].
    assert (x = y) as -> by (by apply Htri).
    destruct (IH l2) as [-> | [H | H]].
    + by left.
    + right. left. by apply lex_less_tail.
    + right. right. by apply lex_less_tail.
Qed.

(** X14.  On two vectors whose live ranges lie inside their blocks,
    [operator<] does not fail and returns true exactly when the live range of
    [lhs] is lexicographically less than the live range of [rhs]: the
    capacities and the slots behind the live ranges play no part.  The other
    three operators are read off it: [rhs > lhs] is the same value, and
    [lhs >= rhs] and [rhs <= lhs] are its negation. *)
Theorem operator_lt_spec lhs rhs :
  live_allocated lhs → live_allocated rhs →
  ∃ b, operator_lt lhs rhs = Ok b
     ∧ (b = true ↔ lex_less (live lhs) (live rhs))
     ∧ operator_gt rhs lhs = Ok b
     ∧ operator_ge lhs rhs = Ok (negb b)
     ∧ operator_le rhs lhs = Ok (negb b).
Proof.
  intros Hl Hr. destruct (operator_lt_ok lhs rhs Hl Hr) as (b & Hb & Hiff).
  exists b. unfold operator_gt, operator_ge, operator_le. rewrite Hb.
  by repeat split; try apply Hiff.
Qed.

(** X15.  When the live range of [lhs] is a proper prefix of the live range
    of [rhs] (and no element is less than itself), [lhs == rhs] and
    [lhs < rhs] are both true, and [lhs != rhs] and [lhs >= rhs] are both
    false. *)
Theorem prefix_is_equal_and_less lhs rhs (x : T) (k : list T) :
  live_allocated lhs → live_allocated rhs →
  (∀ y : T, Type_lt y y = false) →
  live rhs = live lhs ++ x :: k →
  operator_eq lhs rhs = Ok true
  ∧ operator_lt lhs rhs = Ok true
  ∧ operator_ne lhs rhs = Ok false
  ∧ operator_ge lhs rhs = Ok false.
Proof.
  intros Hl Hr Hirr Hlive.
  assert (Heq : operator_eq lhs rhs = Ok true).
  { apply operator_eq_prefix; [done | done |]. exists (x :: k). done. }
  destruct (operator_lt_ok lhs rhs Hl Hr) as (b & Hb & Hiff).
  assert (b = true) as ->.
  { apply Hiff. rewrite Hlive. by apply lex_less_app. }
  unfold operator_ne, operator_ge. by rewrite Heq, Hb.
Qed.

(** X16.  When the order of the elements is asymmetric and any two elements
    that are not ordered are equal, the four ordering operators do not fail
    and agree with each other; [lhs < rhs] and [lhs > rhs] are never both
    true, and both are false, that is [lhs <= rhs] and [lhs >= rhs] are both
    true, exactly when the two live ranges are equal. *)
Theorem ordering_trichotomy lhs rhs :
  live_allocated lhs → live_allocated rhs →
  (∀ x y : T, Type_lt x y = true → Type_lt y x = false) →
  (∀ x y : T, Type_lt x y = false → Type_lt y x = false → x = y) →
  ∃ lt gt, operator_lt lhs rhs = Ok lt
         ∧ operator_gt lhs rhs = Ok gt
         ∧ operator_le lhs rhs = Ok (negb gt)
         ∧ operator_ge lhs rhs = Ok (negb lt)
         ∧ (lt = true → gt = false)
         ∧ (negb gt = true ∧ negb lt = true ↔ live lhs = live rhs).
Proof.
  intros Hl Hr Hasym Htri.
  assert (Hirr : ∀ y : T, Type_lt y y = false).
  { intros y. destruct (Type_lt y y) eqn:Hy; [| done]. by rewrite (Hasym y y Hy) in Hy. }
  destruct (operator_lt_ok lhs rhs Hl Hr) as (lt & Hlt & Hiff1).
  destruct (operator_lt_ok rhs lhs Hr Hl) as (gt & Hgt & Hiff2).
  exists lt, gt. unfold operator_gt, operator_le, operator_ge. rewrite Hlt, Hgt.
  do 4 (split; [done |]). split.
  - intros Ht. destruct gt; [| done].
    exfalso. apply (lex_less_asym (live lhs) Hasym (live rhs)); [by apply Hiff1 | by apply Hiff2].
  - split.
    + intros [Hg Ht].
      destruct (lex_less_total (live lhs) Htri (live rhs)) as [? | [H | H]]; [done | |].
      * apply Hiff1 in H. by subst.
      * apply Hiff2 in H. by subst.
    + intros Heq. rewrite Heq in Hiff1, Hiff2.
      split.
      * destruct gt; [| done]. exfalso. apply (lex_less_irrefl (live rhs) Hirr).
        by apply Hiff2.
      * destruct lt; [| done]. exfalso. apply (lex_less_irrefl (live rhs) Hirr).
        by apply Hiff1.
Qed.

End SimpleVector_order_facts.

(** * The claims on [SimpleVector<int>] *)

(** C6 at [{1, 2}] (size 2, capacity 2) and item 3. *)
Lemma PushBack_spec_witness :
  let v : SimpleVector Z := {| items_ := [1; 2]%Z; size_ := 2; capacity_ := 2 |} in
  Inv v ∧ allocatable v
  ∧ ∃ v', PushBack 3%Z v = Ok v' ∧ GetSize v' = 3 ∧ live v' = [1; 2; 3]%Z.
Proof.
  intros v.
  assert (HInv : Inv v) by (unfold Inv; simpl; lia).
  assert (Hal : allocatable v) by (unfold allocatable, PTRDIFF_MAX; simpl; lia).
  split; [exact HInv |]. split; [exact Hal |].
  destruct (PushBack_spec v 3%Z HInv Hal) as [(v' & Hp & Hs & Hl & _) _].
  exists v'. split; [exact Hp |]. split; [exact Hs | exact Hl].
Defined.

(** C7 at [{1, 2, 3}] and index 1. *)
Lemma At_spec_witness :
  let v : SimpleVector Z := {| items_ := [1; 2; 3]%Z; size_ := 3; capacity_ := 3 |} in
  live_allocated v
  ∧ (At 3 v = Fail out_of_range ↔ GetSize v ≤ 3)
  ∧ ∃ x, At 1 v = Ok (x, v).
Proof.
  intros v.
  assert (Hlen : live_allocated v) by (unfold live_allocated; simpl; lia).
  split; [exact Hlen |]. split.
  - exact (proj1 (At_spec v 3 Hlen)).
  - destruct (proj2 (At_spec v 1 Hlen)) as (x & _ & _ & Hx);
      [unfold GetSize; simpl; lia |].
    exists x. exact Hx.
Defined.

(** C1.  [operator==] does not compare the sizes.  [{1, 2} == {1, 2, 3}] is
    true although the sizes are 2 and 3; with the operands exchanged the call
    reads slot 2 of a block of two slots.  After [PushBack(3)] on one of two
    vectors built from [{1, 2}], the two still compare equal. *)
Theorem operator_eq_ignores_size :
  ∃ a b b' : SimpleVector Z,
    list_12 = Ok a ∧ list_123 = Ok b
    ∧ GetSize a = 2 ∧ GetSize b = 3
    ∧ live a = [1; 2]%Z ∧ live b = [1; 2; 3]%Z
    ∧ operator_eq a b = Ok true
    ∧ operator_eq b a = Fail out_of_bounds
    ∧ operator_eq a a = Ok true
    ∧ PushBack 3%Z a = Ok b'
    ∧ live b' = [1; 2; 3]%Z
    ∧ operator_eq a b' = Ok true.
Proof. do 3 eexists. by vm_compute. Qed.

(** C2.  Copy construction and [Erase] leave a block that is shorter than
    the capacity they record.  The copy of a vector of size 1 and capacity 2
    owns one slot and reports capacity 2, and a [PushBack] on it writes
    outside its block; [Erase] on a vector of size 3 and capacity 4 leaves a
    block of three slots and capacity 4, and the second [PushBack] after it
    writes outside that block. *)
Theorem copy_and_Erase_break_Inv :
  (∃ v c : SimpleVector Z,
     reserved_2_pushed_7 = Ok v ∧ Inv v
     ∧ SimpleVector_copy v = Ok c
     ∧ GetSize c = 1 ∧ GetCapacity c = 2 ∧ length (items_ c) = 1%nat
     ∧ ¬ Inv c
     ∧ PushBack 8%Z c = Fail out_of_bounds)
  ∧ (∃ v e : SimpleVector Z,
       pushed_123 = Ok v ∧ Inv v
       ∧ Erase 1 v = Ok (1, e)
       ∧ GetSize e = 2 ∧ GetCapacity e = 4 ∧ length (items_ e) = 3%nat
       ∧ ¬ Inv e
       ∧ (w ← PushBack 8%Z e; PushBack 9%Z w) = Fail out_of_bounds).
Proof.
  split.
  - do 2 eexists. split; [by vm_compute |].
    split; [concrete |].
    split; [by vm_compute |].
    do 3 (split; [done |]).
    split; [concrete | by vm_compute].
  - do 2 eexists. split; [by vm_compute |].
    split; [concrete |].
    split; [by vm_compute |].
    do 3 (split; [done |]).
    split; [concrete | by vm_compute].
Qed.

(** C3.  [Erase(begin() + 1)] on [{1, 2, 3}] returns the position 1 and
    leaves the content [1, 3] with size 2, and [GetCapacity()] is still 3,
    not the new size: the call allocates a block of the old size and does not
    assign [capacity_]. *)
Theorem Erase_leaves_capacity :
  ∃ v e : SimpleVector Z,
    list_123 = Ok v
    ∧ GetSize v = 3 ∧ GetCapacity v = 3
    ∧ Erase 1 v = Ok (1, e)
    ∧ live e = [1; 3]%Z
    ∧ GetSize e = 2
    ∧ GetCapacity e = 3
    ∧ items_ e = [1; 3; 0]%Z.
Proof. do 2 eexists. by vm_compute. Qed.

(** C4.  With [size < new_size <= capacity] the call fills
    [end(), end() + new_size), the slots [size, size + new_size), and not
    [size, new_size).  On a vector of size 1 and capacity 2, [Resize(2)]
    writes slot 2 of a block of two slots.  Where the block is long enough
    the slots behind [new_size] are overwritten as well: on [{1, ..., 6}] cut
    to size 1, [Resize(2)] also resets slot 2. *)
Theorem Resize_within_capacity_overruns :
  (∃ v : SimpleVector Z,
     reserved_2_pushed_7 = Ok v
     ∧ GetSize v = 1 ∧ GetCapacity v = 2 ∧ length (items_ v) = 2%nat
     ∧ Inv v
     ∧ Resize 2 v = Fail out_of_bounds)
  ∧ (∃ v w : SimpleVector Z,
       (v ← SimpleVector_init [1; 2; 3; 4; 5; 6]%Z; Resize 1 v) = Ok v
       ∧ items_ v = [1; 2; 3; 4; 5; 6]%Z ∧ GetSize v = 1 ∧ GetCapacity v = 6
       ∧ Resize 2 v = Ok w
       ∧ items_ w = [1; 0; 0; 4; 5; 6]%Z ∧ GetSize w = 2 ∧ GetCapacity w = 6).
Proof.
  split.
  - eexists. split; [by vm_compute |].
    do 3 (split; [done |]).
    split; [unfold Inv; simpl; lia | by vm_compute].
  - do 2 eexists. split; [by vm_compute |].
    do 3 (split; [done |]). by vm_compute.
Qed.

(** C5.  Calls that meet their preconditions and leave the allocated block:
    [Insert(begin(), 5)] on a default-constructed vector, [Insert] at either
    position of a full vector of one element, and [Resize(2)] on a vector of
    size 1 and capacity 2. *)
Theorem preconditions_do_not_keep_accesses_in_bounds :
  Inv (SimpleVector_default (T := Z))
  ∧ Insert 0 5%Z (SimpleVector_default (T := Z)) = Fail out_of_bounds
  ∧ (∃ v : SimpleVector Z,
       pushed_1 = Ok v ∧ Inv v
       ∧ Insert 0 5%Z v = Fail out_of_bounds
       ∧ Insert 1 5%Z v = Fail out_of_bounds)
  ∧ (∃ v : SimpleVector Z,
       reserved_2_pushed_7 = Ok v ∧ Inv v
       ∧ Resize 2 v = Fail out_of_bounds).
Proof.
  split; [unfold Inv; simpl; lia |].
  split; [by vm_compute |].
  split.
  - eexists. split; [by vm_compute |].
    split; [unfold Inv; simpl; lia | by vm_compute].
  - eexists. split; [by vm_compute |].
    split; [unfold Inv; simpl; lia | by vm_compute].
Qed.

(** C8.  On a default-constructed vector, and on a full vector of one
    element, [Insert] leaves the allocated block, so the sequence [Insert]
    then [Erase] does not give the vector back. *)
Theorem Insert_then_Erase_on_small_full_vector :
  ('(pos, v) ← Insert 0 5%Z (SimpleVector_default (T := Z)); Erase pos v)
  = Fail out_of_bounds
  ∧ (v ← pushed_1; '(pos, v) ← Insert 1 5%Z v; Erase pos v) = Fail out_of_bounds
  ∧ (v ← pushed_1; '(pos, v) ← Insert 0 5%Z v; Erase pos v) = Fail out_of_bounds.
Proof. by vm_compute. Qed.

(** * Instances of the general theorems *)

(** The copy of a vector of size 1 and capacity 2. *)
Lemma SimpleVector_copy_spec_witness :
  let v : SimpleVector Z := {| items_ := [7; 0]%Z; size_ := 1; capacity_ := 2 |} in
  live_allocated v
  ∧ ∃ c, SimpleVector_copy v = Ok c ∧ live c = [7]%Z ∧ GetCapacity c = 2
       ∧ length (items_ c) = 1%nat.
Proof.
  intros v. assert (Hlen : live_allocated v) by concrete.
  split; [exact Hlen |].
  destruct (SimpleVector_copy_spec v Hlen) as (c & Hc & Hl & _ & Hcap & Hn).
  exists c. split; [exact Hc |]. split; [exact Hl |]. split; [exact Hcap | exact Hn].
Defined.

Lemma Reserve_spec_witness :
  let v : SimpleVector Z := {| items_ := [1; 2]%Z; size_ := 2; capacity_ := 2 |} in
  Inv v
  ∧ Reserve 1 v = Ok v
  ∧ ∃ v', Reserve 5 v = Ok v' ∧ GetCapacity v' = 5 ∧ live v' = [1; 2]%Z.
Proof.
  intros v. assert (HInv : Inv v) by concrete.
  split; [exact HInv |]. split.
  - apply (proj1 (Reserve_spec v 1 HInv)). concrete.
  - destruct (proj2 (Reserve_spec v 5 HInv)) as (v' & Hr & Hc & _ & Hl & _);
      [concrete |].
    exists v'. split; [exact Hr |]. split; [exact Hc | exact Hl].
Defined.

Lemma Resize_grow_spec_witness :
  let v : SimpleVector Z := {| items_ := [1; 2]%Z; size_ := 2; capacity_ := 2 |} in
  Inv v ∧ allocatable v ∧ GetCapacity v < 3
  ∧ ∃ v', Resize 3 v = Ok v' ∧ GetCapacity v' = 4 ∧ live v' = [1; 2; 0]%Z.
Proof.
  intros v.
  assert (HInv : Inv v) by concrete.
  assert (Hal : allocatable v) by concrete.
  assert (Hlt : GetCapacity v < 3) by concrete.
  do 3 (split; [done |]).
  destruct (Resize_grow_spec v 3 HInv Hal Hlt) as (v' & Hr & Hc & _ & Hl & _).
  exists v'. split; [exact Hr |]. split; [exact Hc | exact Hl].
Defined.

Lemma Resize_shrink_spec_witness :
  let v : SimpleVector Z := {| items_ := [1; 2; 3]%Z; size_ := 3; capacity_ := 3 |} in
  Inv v ∧ 1 ≤ GetSize v
  ∧ ∃ v', Resize 1 v = Ok v' ∧ GetCapacity v' = 3 ∧ live v' = [1]%Z.
Proof.
  intros v.
  assert (HInv : Inv v) by concrete.
  assert (Hle : 1 ≤ GetSize v) by concrete.
  do 2 (split; [done |]).
  destruct (Resize_shrink_spec v 1 HInv Hle) as (v' & Hr & _ & Hc & _ & Hl).
  exists v'. split; [exact Hr |]. split; [exact Hc | exact Hl].
Defined.

Lemma Resize_within_spec_witness :
  let v : SimpleVector Z := {| items_ := [7; 0]%Z; size_ := 1; capacity_ := 2 |} in
  GetSize v < 2 ∧ 2 ≤ GetCapacity v
  ∧ Resize 2 v = Fail out_of_bounds.
Proof.
  intros v.
  assert (Hlt : GetSize v < 2) by concrete.
  assert (Hle : 2 ≤ GetCapacity v) by concrete.
  do 2 (split; [done |]).
  apply (proj1 (Resize_within_spec v 2 Hlt Hle)). simpl. lia.
Defined.

Lemma Erase_spec_witness :
  let v : SimpleVector Z := {| items_ := [1; 2; 3; 0]%Z; size_ := 3; capacity_ := 4 |} in
  live_allocated v ∧ allocatable v ∧ 1 < GetSize v
  ∧ ∃ v', Erase 1 v = Ok (1, v') ∧ live v' = [1; 3]%Z ∧ GetCapacity v' = 4
        ∧ length (items_ v') = 3%nat.
Proof.
  intros v.
  assert (Hlen : live_allocated v) by concrete.
  assert (Hal : allocatable v) by concrete.
  assert (Hpos : 1 < GetSize v) by concrete.
  do 3 (split; [done |]).
  destruct (Erase_spec v 1 Hlen Hal Hpos) as (v' & He & _ & Hl & Hc & Hn).
  exists v'. split; [exact He |]. split; [exact Hl |]. split; [exact Hc | exact Hn].
Defined.

Lemma Insert_spec_witness :
  let v : SimpleVector Z := {| items_ := [1; 3]%Z; size_ := 2; capacity_ := 2 |} in
  Inv v ∧ allocatable v ∧ 1 ≤ GetSize v ∧ 2 ≤ GetSize v
  ∧ ∃ v', Insert 1 2%Z v = Ok (1, v') ∧ live v' = [1; 2; 3]%Z ∧ GetCapacity v' = 4.
Proof.
  intros v.
  assert (HInv : Inv v) by concrete.
  assert (Hal : allocatable v) by concrete.
  assert (Hpos : 1 ≤ GetSize v) by concrete.
  assert (Htwo : 2 ≤ GetSize v) by concrete.
  do 4 (split; [done |]).
  destruct (Insert_spec v 1 2%Z HInv Hal Hpos (or_intror Htwo))
    as (v' & Hi & _ & Hl & Hc & _).
  exists v'. split; [exact Hi |]. split; [exact Hl | exact Hc].
Defined.

Lemma Insert_small_full_overruns_witness :
  let v : SimpleVector Z := SimpleVector_default in
  Inv v ∧ 0 ≤ GetSize v ∧ GetSize v = GetCapacity v ∧ GetSize v ≤ 1
  ∧ Insert 0 5%Z v = Fail out_of_bounds.
Proof.
  intros v.
  assert (HInv : Inv v) by concrete.
  assert (Hpos : 0 ≤ GetSize v) by concrete.
  assert (Hfull : GetSize v = GetCapacity v) by done.
  assert (Hone : GetSize v ≤ 1) by concrete.
  do 4 (split; [done |]).
  exact (Insert_small_full_overruns v 0 5%Z HInv Hpos Hfull Hone).
Defined.

Lemma Insert_Erase_roundtrip_witness :
  let v : SimpleVector Z := {| items_ := [1; 3; 0; 0]%Z; size_ := 2; capacity_ := 4 |} in
  Inv v ∧ allocatable v ∧ 0 ≤ GetSize v ∧ GetSize v ≠ GetCapacity v
  ∧ ∃ it v' v'', Insert 0 0%Z v = Ok (it, v') ∧ Erase it v' = Ok (it, v'')
               ∧ live v'' = [1; 3]%Z.
Proof.
  intros v.
  assert (HInv : Inv v) by concrete.
  assert (Hal : allocatable v) by concrete.
  assert (Hpos : 0 ≤ GetSize v) by concrete.
  assert (Hroom : GetSize v ≠ GetCapacity v) by concrete.
  do 4 (split; [done |]).
  destruct (Insert_Erase_roundtrip v 0 0%Z HInv Hal Hpos (or_introl Hroom))
    as (it & v' & v'' & Hi & He & _ & Hl).
  exists it, v', v''. split; [exact Hi |]. split; [exact He | exact Hl].
Defined.

Lemma operator_eq_spec_witness :
  let a : SimpleVector Z := {| items_ := [1; 2]%Z; size_ := 2; capacity_ := 2 |} in
  let b : SimpleVector Z := {| items_ := [1; 2; 3; 0]%Z; size_ := 3; capacity_ := 4 |} in
  live_allocated a ∧ live_allocated b
  ∧ operator_eq a a = Ok true
  ∧ operator_eq a b = Ok true.
Proof.
  intros a b.
  assert (Ha : live_allocated a) by concrete.
  assert (Hb : live_allocated b) by concrete.
  do 2 (split; [done |]). split.
  - exact (proj1 (operator_eq_spec a a Ha Ha) eq_refl).
  - apply (proj2 (operator_eq_spec a b Ha Hb)). by exists [3%Z].
Defined.

Lemma Inv_preserved_witness :
  let v : SimpleVector Z := {| items_ := [1; 2]%Z; size_ := 2; capacity_ := 2 |} in
  Inv v ∧ allocatable v
  ∧ ∃ v', PushBack 3%Z v = Ok v' ∧ Inv v'.
Proof.
  intros v.
  assert (HInv : Inv v) by concrete.
  assert (Hal : allocatable v) by concrete.
  do 2 (split; [done |]).
  eexists. split; [by vm_compute |].
  apply (proj1 (Inv_preserved v HInv Hal) 3%Z). by vm_compute.
Defined.

(** * Instances of the further theorems *)

Lemma int_lt_irrefl : ∀ y : Z, Type_lt y y = false.
Proof. intros y. apply Z.ltb_irrefl. Qed.

Lemma int_lt_asym : ∀ x y : Z, Type_lt x y = true → Type_lt y x = false.
Proof.
  intros x y H. unfold Type_lt, int_ElemLt in *.
  apply Z.ltb_lt in H. apply Z.ltb_ge. lia.
Qed.

Lemma int_lt_total : ∀ x y : Z, Type_lt x y = false → Type_lt y x = false → x = y.
Proof.
  intros x y H1 H2. unfold Type_lt, int_ElemLt in *.
  apply Z.ltb_ge in H1. apply Z.ltb_ge in H2. lia.
Qed.

Lemma operator_lt_spec_witness :
  let a : SimpleVector Z := {| items_ := [1; 2; 9]%Z; size_ := 2; capacity_ := 3 |} in
  let b : SimpleVector Z := {| items_ := [1; 3]%Z; size_ := 2; capacity_ := 2 |} in
  live_allocated a ∧ live_allocated b
  ∧ ∃ r, operator_lt a b = Ok r ∧ (r = true ↔ lex_less [1; 2]%Z [1; 3]%Z)
       ∧ operator_ge a b = Ok (negb r).
Proof.
  intros a b.
  assert (Ha : live_allocated a) by concrete.
  assert (Hb : live_allocated b) by concrete.
  do 2 (split; [done |]).
  destruct (operator_lt_spec a b Ha Hb) as (r & Hr & Hiff & _ & Hge & _).
  exists r. split; [exact Hr |]. split; [exact Hiff | exact Hge].
Defined.

Lemma prefix_is_equal_and_less_witness :
  let a : SimpleVector Z := {| items_ := [1; 2]%Z; size_ := 2; capacity_ := 2 |} in
  let b : SimpleVector Z := {| items_ := [1; 2; 3; 0]%Z; size_ := 3; capacity_ := 4 |} in
  live_allocated a ∧ live_allocated b
  ∧ live b = live a ++ [3%Z]
  ∧ operator_eq a b = Ok true
  ∧ operator_lt a b = Ok true.
Proof.
  intros a b.
  assert (Ha : live_allocated a) by concrete.
  assert (Hb : live_allocated b) by concrete.
  assert (Hlive : live b = live a ++ [3%Z]) by done.
  do 3 (split; [done |]).
  destruct (prefix_is_equal_and_less a b 3%Z [] Ha Hb int_lt_irrefl Hlive)
    as (Heq & Hlt & _).
  split; [exact Heq | exact Hlt].
Defined.

Lemma ordering_trichotomy_witness :
  let a : SimpleVector Z := {| items_ := [1; 2]%Z; size_ := 2; capacity_ := 2 |} in
  let b : SimpleVector Z := {| items_ := [1; 2; 7]%Z; size_ := 2; capacity_ := 3 |} in
  live_allocated a ∧ live_allocated b
  ∧ ∃ lt gt, operator_lt a b = Ok lt ∧ operator_gt a b = Ok gt
           ∧ (negb gt = true ∧ negb lt = true ↔ live a = live b).
Proof.
  intros a b.
  assert (Ha : live_allocated a) by concrete.
  assert (Hb : live_allocated b) by concrete.
  do 2 (split; [done |]).
  destruct (ordering_trichotomy a b Ha Hb int_lt_asym int_lt_total)
    as (lt & gt & Hlt & Hgt & _ & _ & _ & Hiff).
  exists lt, gt. split; [exact Hlt |]. split; [exact Hgt | exact Hiff].
Defined.

Lemma subscript_spec_witness :
  let v : SimpleVector Z := {| items_ := [4; 5; 6]%Z; size_ := 2; capacity_ := 3 |} in
  live_allocated v
  ∧ (∃ x, subscript 1 v = Ok x ∧ At 1 v = Ok (x, v))
  ∧ subscript 2 v = Fail assertion_failed.
Proof.
  intros v. assert (Hlen : live_allocated v) by concrete.
  split; [done |]. split.
  - destruct (proj1 (subscript_spec v 1 Hlen)) as (x & _ & Hs & Ha); [concrete |].
    exists x. split; [exact Hs | exact Ha].
  - apply (proj2 (subscript_spec v 2 Hlen)). concrete.
Defined.

Lemma PopBack_spec_witness :
  let v : SimpleVector Z := {| items_ := [4; 5; 6]%Z; size_ := 3; capacity_ := 3 |} in
  live_allocated v ∧ allocatable v
  ∧ ∃ v', PopBack v = Ok v' ∧ live v' = [4; 5]%Z ∧ GetCapacity v' = 3.
Proof.
  intros v.
  assert (Hlen : live_allocated v) by concrete.
  assert (Hal : allocatable v) by concrete.
  do 2 (split; [done |]).
  destruct (proj2 (PopBack_spec v Hlen Hal)) as (v' & Hp & _ & Hl & _ & Hc); [concrete |].
  exists v'. split; [exact Hp |]. split; [exact Hl | exact Hc].
Defined.

Lemma PushBack_PopBack_witness :
  let v : SimpleVector Z := {| items_ := [4; 5]%Z; size_ := 2; capacity_ := 2 |} in
  Inv v ∧ allocatable v
  ∧ ∃ v' v'', PushBack 6%Z v = Ok v' ∧ PopBack v' = Ok v'' ∧ live v'' = [4; 5]%Z.
Proof.
  intros v.
  assert (HInv : Inv v) by concrete.
  assert (Hal : allocatable v) by concrete.
  do 2 (split; [done |]).
  destruct (PushBack_PopBack v 6%Z HInv Hal) as (v' & v'' & Hp & Hq & _ & Hl).
  exists v', v''. split; [exact Hp |]. split; [exact Hq | exact Hl].
Defined.

Lemma operator_assign_spec_witness :
  let t : SimpleVector Z := {| items_ := [9]%Z; size_ := 1; capacity_ := 1 |} in
  let r : SimpleVector Z := {| items_ := [1; 2; 0]%Z; size_ := 2; capacity_ := 3 |} in
  let σ : gmap loc (SimpleVector Z) := <[1 := t]> (<[2 := r]> ∅) in
  (1 : loc) ≠ 2 ∧ σ !! (1 : loc) = Some t ∧ σ !! (2 : loc) = Some r ∧ live_allocated r
  ∧ ∃ σ' t', operator_assign 1 2 σ = Ok (1, σ')
           ∧ σ' !! (1 : loc) = Some t' ∧ live t' = [1; 2]%Z
           ∧ σ' !! (2 : loc) = Some r.
Proof.
  intros t r σ.
  assert (Hne : (1 : loc) ≠ 2) by done.
  assert (Ht : σ !! (1 : loc) = Some t) by done.
  assert (Hr : σ !! (2 : loc) = Some r) by done.
  assert (Hlen : live_allocated r) by concrete.
  do 4 (split; [done |]).
  destruct (operator_assign_spec σ 1 2 t r Hne Ht Hr Hlen)
    as (σ' & t' & Ha & Ht' & Hl & _ & _ & Hr' & _).
  exists σ', t'. split; [exact Ha |]. split; [exact Ht' |]. split; [exact Hl | exact Hr'].
Defined.

Lemma PushBack_all_spec_witness :
  let v : SimpleVector Z := SimpleVector_default in
  Inv v ∧ allocatable v
  ∧ 2 * (GetSize v + N.of_nat (length [1; 2; 3; 4; 5]%Z)) ≤ PTRDIFF_MAX
  ∧ ∃ v', PushBack_all [1; 2; 3; 4; 5]%Z v = Ok v'
        ∧ live v' = [1; 2; 3; 4; 5]%Z
        ∧ GetCapacity v' ≤ N.max (GetCapacity v) (2 * GetSize v').
Proof.
  intros v.
  assert (HInv : Inv v) by concrete.
  assert (Hal : allocatable v) by concrete.
  assert (Hb : 2 * (GetSize v + N.of_nat (length [1; 2; 3; 4; 5]%Z)) ≤ PTRDIFF_MAX)
    by concrete.
  do 3 (split; [done |]).
  destruct (PushBack_all_spec [1; 2; 3; 4; 5]%Z v HInv Hal Hb)
    as (v' & Hp & _ & Hl & _ & _ & Hc).
  exists v'. split; [exact Hp |]. split; [exact Hl | exact Hc].
Defined.

Lemma PushBack_all_within_capacity_witness :
  let v : SimpleVector Z := {| items_ := [1; 0; 0; 0]%Z; size_ := 1; capacity_ := 4 |} in
  Inv v ∧ allocatable v
  ∧ GetSize v + N.of_nat (length [2; 3]%Z) ≤ GetCapacity v
  ∧ ∃ v', PushBack_all [2; 3]%Z v = Ok v'
        ∧ live v' = [1; 2; 3]%Z ∧ GetCapacity v' = 4.
Proof.
  intros v.
  assert (HInv : Inv v) by concrete.
  assert (Hal : allocatable v) by concrete.
  assert (Hb : GetSize v + N.of_nat (length [2; 3]%Z) ≤ GetCapacity v) by concrete.
  do 3 (split; [done |]).
  destruct (PushBack_all_within_capacity [2; 3]%Z v HInv Hal Hb)
    as (v' & Hp & _ & Hl & Hc & _).
  exists v'. split; [exact Hp |]. split; [exact Hl | exact Hc].
Defined.

Lemma SimpleVector_reserved_spec_witness :
  3 ≤ PTRDIFF_MAX ∧ N.of_nat (length [7; 8]%Z) ≤ 3
  ∧ ∃ v v' : SimpleVector Z,
      SimpleVector_reserved (Reserve_proxy 3) = Ok v
      ∧ GetCapacity v = 3
      ∧ PushBack_all [7; 8]%Z v = Ok v'
      ∧ live v' = [7; 8]%Z
      ∧ GetCapacity v' = 3.
Proof.
  assert (Hc : 3 ≤ PTRDIFF_MAX) by (unfold PTRDIFF_MAX; lia).
  assert (Hl : N.of_nat (length [7; 8]%Z) ≤ 3) by (simpl; lia).
  do 2 (split; [done |]).
  destruct (SimpleVector_reserved_spec (T := Z) 3 [7; 8]%Z Hc Hl)
    as (v & v' & Hr & _ & Hcap & _ & _ & _ & Hp & Hlive & Hcap' & _).
  exists v, v'. split; [exact Hr |]. split; [exact Hcap |].
  split; [exact Hp |]. split; [exact Hlive | exact Hcap'].
Defined.

Lemma Clear_then_refill_witness :
  let v : SimpleVector Z := {| items_ := [1; 2; 0]%Z; size_ := 2; capacity_ := 3 |} in
  Inv v ∧ allocatable v
  ∧ At 0 (Clear v) = Fail out_of_range
  ∧ ∃ v', PushBack_all [1; 2]%Z (Clear v) = Ok v' ∧ live v' = [1; 2]%Z
        ∧ GetCapacity v' = 3.
Proof.
  intros v.
  assert (HInv : Inv v) by concrete.
  assert (Hal : allocatable v) by concrete.
  do 2 (split; [done |]).
  destruct (Clear_then_refill v HInv Hal) as (_ & _ & _ & Hat & v' & Hp & Hl & _ & Hc & _).
  split; [exact (Hat 0) |].
  exists v'. split; [exact Hp |]. split; [exact Hl | exact Hc].
Defined.

Lemma copy_compares_equal_witness :
  let v : SimpleVector Z := {| items_ := [1; 2; 0]%Z; size_ := 2; capacity_ := 3 |} in
  live_allocated v
  ∧ ∃ c, SimpleVector_copy v = Ok c ∧ operator_eq v c = Ok true
       ∧ operator_eq c v = Ok true.
Proof.
  intros v. assert (Hlen : live_allocated v) by concrete.
  split; [done |].
  destruct (copy_compares_equal v Hlen) as (c & Hc & H1 & H2 & _).
  exists c. split; [exact Hc |]. split; [exact H1 | exact H2].
Defined.

Lemma Insert_at_end_is_PushBack_witness :
  let v : SimpleVector Z := {| items_ := [1; 2]%Z; size_ := 2; capacity_ := 2 |} in
  Inv v ∧ allocatable v ∧ 2 ≤ GetSize v
  ∧ ∃ vi vp, Insert 2 3%Z v = Ok (2, vi) ∧ PushBack 3%Z v = Ok vp
           ∧ live vi = [1; 2; 3]%Z ∧ live vp = [1; 2; 3]%Z
           ∧ GetCapacity vi = GetCapacity vp.
Proof.
  intros v.
  assert (HInv : Inv v) by concrete.
  assert (Hal : allocatable v) by concrete.
  assert (Htwo : 2 ≤ GetSize v) by concrete.
  do 3 (split; [done |]).
  destruct (Insert_at_end_is_PushBack v 3%Z HInv Hal (or_intror Htwo))
    as (vi & vp & Hi & Hp & Hli & Hlp & _ & Hc).
  exists vi, vp. split; [exact Hi |]. split; [exact Hp |].
  split; [exact Hli |]. split; [exact Hlp | exact Hc].
Defined.

Lemma Erase_last_is_PopBack_witness :
  let v : SimpleVector Z := {| items_ := [1; 2; 3]%Z; size_ := 3; capacity_ := 3 |} in
  live_allocated v ∧ allocatable v ∧ GetSize v ≠ 0
  ∧ ∃ ve vp, Erase 2 v = Ok (2, ve) ∧ PopBack v = Ok vp
           ∧ live ve = [1; 2]%Z ∧ live vp = [1; 2]%Z.
Proof.
  intros v.
  assert (Hlen : live_allocated v) by concrete.
  assert (Hal : allocatable v) by concrete.
  assert (Hne : GetSize v ≠ 0) by concrete.
  do 3 (split; [done |]).
  destruct (Erase_last_is_PopBack v Hlen Hal Hne)
    as (ve & vp & He & Hp & Hle & Hlp & Hs & _).
  exists ve, vp.
  assert (Hend : end_ ve = 2).
  { unfold end_. unfold GetSize in Hs. rewrite Hs.
    pose proof Hp as Hp'. by injection Hp' as <-. }
  rewrite Hend in He.
  split; [exact He |]. split; [exact Hp |]. split; [exact Hle | exact Hlp].
Defined.

Lemma Resize_grow_then_shrink_witness :
  let v : SimpleVector Z := {| items_ := [1; 2]%Z; size_ := 2; capacity_ := 2 |} in
  Inv v ∧ allocatable v ∧ GetCapacity v < 5
  ∧ ∃ v' v'', Resize 5 v = Ok v' ∧ Resize 2 v' = Ok v''
            ∧ live v'' = [1; 2]%Z ∧ GetCapacity v'' = 5.
Proof.
  intros v.
  assert (HInv : Inv v) by concrete.
  assert (Hal : allocatable v) by concrete.
  assert (Hlt : GetCapacity v < 5) by concrete.
  do 3 (split; [done |]).
  destruct (Resize_grow_then_shrink v 5 HInv Hal Hlt) as (v' & v'' & H1 & H2 & _ & Hl & Hc).
  exists v', v''. split; [exact H1 |]. split; [exact H2 |]. split; [exact Hl | exact Hc].
Defined.
